(** * HD sequential address discovery

    A shallow embedding of
    [packages/wallet/src/services/AddressDiscovery/HDSequentialDiscovery.ts]:
    the usage oracle adapter [addressHasTx], the gap-limit chain scanner
    [discoverAddresses], the orchestrator [HDSequentialDiscovery.discover],
    the credential extractor [getPaymentCredential] and the programmable
    address deriver [makeProgrammableTokenAddress].

    Conventions.
    - JavaScript numbers that hold derivation indices and counters are [nat]
      (they stay far below 2^53 in any run); the differences taken by the
      sort comparator are [Z].
    - A thrown exception is the [Throw] case of [Result].
    - The [while] loop of the scanner need not terminate (an oracle may report
      usage for ever), so it is iterated with fuel; [None] means that the
      fuel ran out.
    - The awaited calls to the account and to the chain history provider are
      functions of their arguments: one run sees one snapshot of the chain. *)

From Stdlib Require Import List String Ascii ZArith Lia Bool Arith PeanoNat.
From Stdlib Require Import Permutation Sorted.
Import ListNotations.

Set Implicit Arguments.

(** ** Exceptions *)

(** [UnsupportedAddressType] is [new Error('Unsupported address type')];
    [TypeError] is what reading a property of [null]/[undefined] raises. *)
Inductive Error : Type :=
| UnsupportedAddressType
| TypeError.

Inductive Result (A : Type) : Type :=
| Ok (a : A)
| Throw (e : Error).

Arguments Ok {A} a.
Arguments Throw {A} e.

Definition bind {A B : Type} (r : Result A) (k : A -> Result B) : Result B :=
  match r with
  | Ok a => k a
  | Throw e => Throw e
  end.

Notation "x <- r ;; k" := (bind r (fun x => k))
  (at level 61, r at next level, right associativity).

(** [array.map(f)] for an [f] that may throw: the first exception aborts. *)
Fixpoint mapi_from {A B : Type} (f : A -> nat -> Result B) (idx : nat) (l : list A)
  : Result (list B) :=
  match l with
  | [] => Ok []
  | a :: t =>
      b <- f a idx ;;
      bs <- mapi_from f (S idx) t ;;
      Ok (b :: bs)
  end.

Definition mapi {A B : Type} (f : A -> nat -> Result B) (l : list A) : Result (list B) :=
  mapi_from f 0 l.

(** ** The Cardano address library *)

Module Cardano.

(** Modelled from the spec: the address data of [@cardano-sdk/core], which
    is imported by the source file but is not part of it.  An address is
    one of the kinds the spec lists (base, enterprise, pointer, reward,
    byron/bootstrap); a credential is a hash with its type. *)
Inductive CredentialType : Type :=
| KeyHash
| ScriptHash.

Record Credential : Type := { hash : string; type : CredentialType }.

Inductive NetworkId : Type :=
| Testnet
| Mainnet.

Inductive AddressType : Type :=
| BasePaymentKeyStakeKey
| BasePaymentScriptStakeKey
| BasePaymentKeyStakeScript
| BasePaymentScriptStakeScript
| PointerKey
| PointerScript
| EnterpriseKey
| EnterpriseScript
| Byron
| RewardKey
| RewardScript.

Record BaseAddress : Type :=
  { base_network : NetworkId;
    base_payment : Credential;
    base_stake : Credential }.

Record EnterpriseAddress : Type :=
  { enterprise_network : NetworkId;
    enterprise_payment : Credential }.

(** Modelled from the spec: the address kinds.  The kind tag of a base,
    enterprise, pointer or reward address follows from the types of its
    credentials, as [BaseAddress.fromCredentials] and its siblings set it. *)
Inductive Address : Type :=
| OfBase (b : BaseAddress)
| OfEnterprise (e : EnterpriseAddress)
| OfPointer (network : NetworkId) (payment : Credential) (pointer : nat * nat * nat)
| OfReward (network : NetworkId) (stake : Credential)
| OfByron (content : string).

(** Modelled from the spec: [Address.getType()]. *)
Definition getType (a : Address) : AddressType :=
  match a with
  | OfBase b =>
      match type (base_payment b), type (base_stake b) with
      | KeyHash, KeyHash => BasePaymentKeyStakeKey
      | ScriptHash, KeyHash => BasePaymentScriptStakeKey
      | KeyHash, ScriptHash => BasePaymentKeyStakeScript
      | ScriptHash, ScriptHash => BasePaymentScriptStakeScript
      end
  | OfEnterprise e =>
      match type (enterprise_payment e) with
      | KeyHash => EnterpriseKey
      | ScriptHash => EnterpriseScript
      end
  | OfPointer _ payment _ =>
      match type payment with
      | KeyHash => PointerKey
      | ScriptHash => PointerScript
      end
  | OfReward _ stake =>
      match type stake with
      | KeyHash => RewardKey
      | ScriptHash => RewardScript
      end
  | OfByron _ => Byron
  end.

(** Modelled from the spec: [asBase()] and [asEnterprise()], which answer
    [undefined] on an address of another kind. *)
Definition asBase (a : Address) : option BaseAddress :=
  match a with
  | OfBase b => Some b
  | _ => None
  end.

Definition asEnterprise (a : Address) : option EnterpriseAddress :=
  match a with
  | OfEnterprise e => Some e
  | _ => None
  end.

(** Modelled from the spec: [BaseAddress.fromCredentials(networkId, payment,
    stake)] and [.toAddress()]. *)
Definition fromCredentials (networkId : NetworkId) (payment stake : Credential)
  : BaseAddress :=
  {| base_network := networkId; base_payment := payment; base_stake := stake |}.

Definition toAddress (b : BaseAddress) : Address := OfBase b.

Definition networkOf (a : Address) : option NetworkId :=
  match a with
  | OfBase b => Some (base_network b)
  | OfEnterprise e => Some (enterprise_network e)
  | OfPointer n _ _ => Some n
  | OfReward n _ => Some n
  | OfByron _ => None
  end.

(** The payment credential an address carries, when it has one. *)
Definition paymentCredentialOf (a : Address) : option Credential :=
  match a with
  | OfBase b => Some (base_payment b)
  | OfEnterprise e => Some (enterprise_payment e)
  | OfPointer _ payment _ => Some payment
  | OfReward _ _ => None
  | OfByron _ => None
  end.

Inductive PlutusLanguageVersion : Type :=
| V1
| V2
| V3.

(** A Plutus script ([__type] is always [ScriptType.Plutus] here). *)
Record PlutusScript : Type :=
  { bytes : string; version : PlutusLanguageVersion }.

(** The kinds [getPaymentCredential] has a [case] for. *)
Definition supported (t : AddressType) : bool :=
  match t with
  | EnterpriseKey | EnterpriseScript
  | BasePaymentKeyStakeKey | BasePaymentKeyStakeScript
  | BasePaymentScriptStakeScript | BasePaymentScriptStakeKey => true
  | _ => false
  end.

End Cardano.

(** ** Key management: derivation paths and grouped addresses *)

(** [AddressType] of [@cardano-sdk/key-management]: the payment key role. *)
Inductive AddressType : Type :=
| External
| Internal.

Inductive KeyRole : Type :=
| RoleExternal
| RoleInternal
| RoleStake
| RoleDRep.

Module AccountAddressDerivationPath.
Record t : Type := { index : nat; type : AddressType }.
End AccountAddressDerivationPath.

Module AccountKeyDerivationPath.
Record t : Type := { index : nat; role : KeyRole }.
End AccountKeyDerivationPath.

(** The [GroupedAddress] interface, as quoted in the source file. *)
Record GroupedAddress : Type :=
  { type : AddressType;
    index : nat;
    networkId : Cardano.NetworkId;
    accountIndex : nat;
    address : string;
    rewardAccount : string;
    stakeKeyDerivationPath : option AccountKeyDerivationPath.t }.

(** [Bip32Account]: only [deriveAddress] is used. *)
Record Bip32Account : Type :=
  { deriveAddress : AccountAddressDerivationPath.t -> nat -> GroupedAddress }.

(** [ChainHistoryProvider]: only [transactionsByAddresses] is used, and only
    [totalResultCount] of its answer is read. *)
Record Pagination : Type := { limit : nat; startAt : nat }.

Record TransactionsByAddressesArgs : Type :=
  { addresses : list string; pagination : Pagination }.

Record PaginatedTxs : Type := { totalResultCount : Z }.

Record ChainHistoryProvider : Type :=
  { transactionsByAddresses : TransactionsByAddressesArgs -> PaginatedTxs }.

Definition STAKE_KEY_INDEX_LOOKAHEAD : nat := 5.

(** ** Usage oracle adapter *)

Definition addressHasTx (a : GroupedAddress) (chainHistoryProvider : ChainHistoryProvider)
  : bool :=
  let txs :=
    transactionsByAddresses chainHistoryProvider
      {| addresses := [address a];
         pagination := {| limit := 1; startAt := 0 |} |} in
  (0 <? totalResultCount txs)%Z.

(** ** What the source takes from the serialization library

    [Cardano.Address.fromString] (which answers [null] on a string that is no
    address), [Address.toBech32] and [Serialization.Script.fromCore(s).hash()]
    are library code; the development is parametric in them. *)
Class Serialization : Type :=
  { fromString : string -> option Cardano.Address;
    toBech32 : Cardano.Address -> string;
    scriptHash : Cardano.PlutusScript -> string }.

(** ** Credential extractor *)

Definition getPaymentCredential (userAddress : Cardano.Address)
  : Result Cardano.Credential :=
  match Cardano.getType userAddress with
  | Cardano.EnterpriseKey
  | Cardano.EnterpriseScript =>
      match Cardano.asEnterprise userAddress with
      | Some e => Ok (Cardano.enterprise_payment e)
      | None => Throw TypeError
      end
  | Cardano.BasePaymentKeyStakeKey
  | Cardano.BasePaymentKeyStakeScript
  | Cardano.BasePaymentScriptStakeScript
  | Cardano.BasePaymentScriptStakeKey =>
      match Cardano.asBase userAddress with
      | Some b => Ok (Cardano.base_payment b)
      | None => Throw TypeError
      end
  | _ => Throw UnsupportedAddressType
  end.

(** ** Programmable address deriver *)

Definition programmableLogicBase : Cardano.PlutusScript :=
  {| Cardano.bytes :=
       "58845882010000223253335734a666ae68cdd79aab9d3574200200629444cc8c8c8c0088cc0080080048c0088cc008008004894ccd55cf8008b0a999ab9a30033574200229444c008d5d1000919baf35573a0020086ae88004526163756646ae84c8d5d11aba2357446ae88d5d11aba20013235573c6ea8004004d5d0991aab9e37540020021"%string;
     Cardano.version := Cardano.V3 |}.

Section Deriver.
Context {lib : Serialization}.

(** The script credential that every programmable address pays to. *)
Definition programmableLogicCredential : Cardano.Credential :=
  {| Cardano.hash := scriptHash programmableLogicBase;
     Cardano.type := Cardano.ScriptHash |}.

Definition makeProgrammableTokenAddress (userAddress : string)
    (networkId : Cardano.NetworkId) : Result string :=
  match fromString userAddress with
  | None => Throw TypeError
  | Some parsed =>
      paymentCredential <- getPaymentCredential parsed ;;
      Ok (toBech32
            (Cardano.toAddress
               (Cardano.fromCredentials networkId
                  programmableLogicCredential paymentCredential)))
  end.
End Deriver.

(** ** Chain scanner *)

(** What [getDeriveAddressArgs] returns. *)
Record DeriveAddressArgs : Type :=
  { paymentKeyDerivationPath : AccountAddressDerivationPath.t;
    stakeKeyDerivationIndex : nat }.

(** The variables of the loop of [discoverAddresses].  [probed] is not a
    variable of the source: it records, in call order, the addresses handed
    to [addressHasTx], which is the observable effect of the loop. *)
Record ScanState : Type :=
  { currentGap : nat;
    currentIndex : nat;
    found : list GroupedAddress;
    probed : list GroupedAddress }.

Definition scanStart : ScanState :=
  {| currentGap := 0; currentIndex := 0; found := []; probed := [] |}.

Section Scanner.
Variable account : Bip32Account.
Variable chainHistoryProvider : ChainHistoryProvider.
Variable lookAheadCount : nat.
Variable getDeriveAddressArgs : nat -> AddressType -> DeriveAddressArgs.

(** The address derived for scan position [i] and key role [t]. *)
Definition candidate (i : nat) (t : AddressType) : GroupedAddress :=
  let args := getDeriveAddressArgs i t in
  deriveAddress account (paymentKeyDerivationPath args) (stakeKeyDerivationIndex args).

(** One execution of the loop body. *)
Definition scanBody (st : ScanState) : ScanState :=
  let externalAddress := candidate (currentIndex st) External in
  let internalAddress := candidate (currentIndex st) Internal in
  let externalHasTx := addressHasTx externalAddress chainHistoryProvider in
  let internalHasTx := addressHasTx internalAddress chainHistoryProvider in
  let pushed1 :=
    if externalHasTx then found st ++ [externalAddress] else found st in
  let pushed2 :=
    if internalHasTx then pushed1 ++ [internalAddress] else pushed1 in
  {| currentGap := if externalHasTx || internalHasTx then 0 else S (currentGap st);
     currentIndex := S (currentIndex st);
     found := pushed2;
     probed := probed st ++ [externalAddress; internalAddress] |}.

(** [while (currentGap <= lookAheadCount) body], with fuel. *)
Fixpoint scanLoop (fuel : nat) (st : ScanState) : option ScanState :=
  match fuel with
  | O => None
  | S fuel' =>
      if currentGap st <=? lookAheadCount
      then scanLoop fuel' (scanBody st)
      else Some st
  end.

Definition discoverAddresses (fuel : nat) : option (list GroupedAddress) :=
  option_map found (scanLoop fuel scanStart).

(** *** Vocabulary for the properties of a scan *)

Definition externalHasTx (i : nat) : bool :=
  addressHasTx (candidate i External) chainHistoryProvider.

Definition internalHasTx (i : nat) : bool :=
  addressHasTx (candidate i Internal) chainHistoryProvider.

(** Position [i] is used when one of its two addresses has history. *)
Definition usedAt (i : nat) : bool := externalHasTx i || internalHasTx i.

(** The addresses of position [i] that have history, external first. *)
Definition hitsAt (i : nat) : list GroupedAddress :=
  (if externalHasTx i then [candidate i External] else [])
  ++ (if internalHasTx i then [candidate i Internal] else []).

Definition probesAt (i : nat) : list GroupedAddress :=
  [candidate i External; candidate i Internal].

Definition hitsBefore (k : nat) : list GroupedAddress := flat_map hitsAt (seq 0 k).

Definition probesBefore (k : nat) : list GroupedAddress := flat_map probesAt (seq 0 k).

(** The [lookAheadCount + 1] positions from [n] on are all unused. *)
Definition quietRun (n : nat) : bool :=
  forallb (fun i => negb (usedAt i)) (seq n (S lookAheadCount)).

(** Position [n] starts the first such run. *)
Definition firstQuietRun (n : nat) : Prop :=
  quietRun n = true /\ forall m, m < n -> quietRun m = false.

(** The number of unused positions that end just before position [k]. *)
Fixpoint gapBefore (k : nat) : nat :=
  match k with
  | O => 0
  | S k' => if usedAt k' then 0 else S (gapBefore k')
  end.

(** The loop variables after [k] executions of the body. *)
Definition stateAfter (k : nat) : ScanState := Nat.iter k scanBody scanStart.
End Scanner.

(** ** Discovery orchestrator *)

(** lodash [uniqBy(list, 'address')]: the first entry of each encoded
    address is kept, in order.  [seen] holds the keys met so far. *)
Fixpoint uniqByFrom (seen : list string) (l : list GroupedAddress)
  : list GroupedAddress :=
  match l with
  | [] => []
  | a :: t =>
      if existsb (String.eqb (address a)) seen
      then uniqByFrom seen t
      else a :: uniqByFrom (address a :: seen) t
  end.

Definition uniqBy (l : list GroupedAddress) : list GroupedAddress :=
  uniqByFrom [] l.

(** The comparator given to [sort]:
    [a.index - b.index || a.stakeKeyDerivationPath!.index - b.stakeKeyDerivationPath!.index].
    The right operand is evaluated only when the left one is [0], and then
    a missing [stakeKeyDerivationPath] raises. *)
Definition compareFn (a b : GroupedAddress) : Result Z :=
  let d := (Z.of_nat (index a) - Z.of_nat (index b))%Z in
  if (d =? 0)%Z then
    match stakeKeyDerivationPath a, stakeKeyDerivationPath b with
    | Some sa, Some sb =>
        Ok (Z.of_nat (AccountKeyDerivationPath.index sa)
            - Z.of_nat (AccountKeyDerivationPath.index sb))%Z
    | _, _ => Throw TypeError
    end
  else Ok d.

(** [Array.prototype.sort] is a stable sort; it is modelled as a stable
    insertion sort, in which an exception of the comparator aborts. *)
Fixpoint insertSorted (x : GroupedAddress) (l : list GroupedAddress)
  : Result (list GroupedAddress) :=
  match l with
  | [] => Ok [x]
  | y :: ys =>
      c <- compareFn x y ;;
      if (c <=? 0)%Z then Ok (x :: y :: ys)
      else
        r <- insertSorted x ys ;;
        Ok (y :: r)
  end.

Fixpoint sort (l : list GroupedAddress) : Result (list GroupedAddress) :=
  match l with
  | [] => Ok []
  | x :: t =>
      s <- sort t ;;
      insertSorted x s
  end.

(** The object: [#chainHistoryProvider] and [#lookAheadCount]. *)
Record HDSequentialDiscovery : Type :=
  { this_chainHistoryProvider : ChainHistoryProvider;
    this_lookAheadCount : nat }.

Definition stakeKeyArgs (currentIndex : nat) (t : AddressType) : DeriveAddressArgs :=
  {| paymentKeyDerivationPath :=
       {| AccountAddressDerivationPath.index := 0;
          AccountAddressDerivationPath.type := t |};
     stakeKeyDerivationIndex := currentIndex + 1 |}.

Definition paymentKeyArgs (currentIndex : nat) (t : AddressType) : DeriveAddressArgs :=
  {| paymentKeyDerivationPath :=
       {| AccountAddressDerivationPath.index := currentIndex + 1;
          AccountAddressDerivationPath.type := t |};
     stakeKeyDerivationIndex := 0 |}.

Section Orchestrator.
Context {lib : Serialization}.
Variable this : HDSequentialDiscovery.
Variable manager : Bip32Account.

Definition firstExternalAddress : GroupedAddress :=
  deriveAddress manager
    {| AccountAddressDerivationPath.index := 0;
       AccountAddressDerivationPath.type := External |} 0.

Definition firstInternalAddress : GroupedAddress :=
  deriveAddress manager
    {| AccountAddressDerivationPath.index := 0;
       AccountAddressDerivationPath.type := Internal |} 0.

Definition firstAddresses : list GroupedAddress :=
  if addressHasTx firstInternalAddress (this_chainHistoryProvider this)
  then [firstExternalAddress; firstInternalAddress]
  else [firstExternalAddress].

Definition stakeKeyAddresses (fuel : nat) : option (list GroupedAddress) :=
  discoverAddresses manager (this_chainHistoryProvider this)
    STAKE_KEY_INDEX_LOOKAHEAD stakeKeyArgs fuel.

Definition paymentKeyAddresses (fuel : nat) : option (list GroupedAddress) :=
  discoverAddresses manager (this_chainHistoryProvider this)
    (this_lookAheadCount this) paymentKeyArgs fuel.

(** The constant [addresses] of [discover]: the three lists, concatenated
    and deduplicated. *)
Definition discoveredAddresses (fuel : nat) : option (list GroupedAddress) :=
  match stakeKeyAddresses fuel with
  | None => None
  | Some stakeKeys =>
      match paymentKeyAddresses fuel with
      | None => None
      | Some paymentKeys => Some (uniqBy (firstAddresses ++ stakeKeys ++ paymentKeys))
      end
  end.

(** [addresses[addresses.length - 1].index] *)
Definition lastIndex (addrs : list GroupedAddress) : Result nat :=
  match rev addrs with
  | [] => Throw TypeError
  | a :: _ => Ok (index a)
  end.

(** The callback of [addresses.map((address, idx) => ...)]. *)
Definition progTokenAddress (lastIdx : nat) (a : GroupedAddress) (idx : nat)
  : Result GroupedAddress :=
  programmable <- makeProgrammableTokenAddress (address a) (networkId a) ;;
  Ok {| type := type a;
        index := lastIdx + idx + 1;
        networkId := networkId a;
        accountIndex := accountIndex a;
        address := programmable;
        rewardAccount := rewardAccount a;
        stakeKeyDerivationPath := stakeKeyDerivationPath a |}.

Definition progTokenAddresses (addrs : list GroupedAddress)
  : Result (list GroupedAddress) :=
  lastIdx <- lastIndex addrs ;;
  mapi (progTokenAddress lastIdx) addrs.

(** What [discover] does once [addresses] is known. *)
Definition withProgrammable (addrs : list GroupedAddress)
  : Result (list GroupedAddress) :=
  progs <- progTokenAddresses addrs ;;
  sort (addrs ++ progs).

Definition discover (fuel : nat) : option (Result (list GroupedAddress)) :=
  option_map withProgrammable (discoveredAddresses fuel).
End Orchestrator.

(** *** Vocabulary for the properties of a discovery *)

(** The address of payment index [p] and role [t] at stake index 0. *)
Definition paymentAddress (manager : Bip32Account) (t : AddressType) (p : nat)
  : GroupedAddress :=
  deriveAddress manager
    {| AccountAddressDerivationPath.index := p;
       AccountAddressDerivationPath.type := t |} 0.

(** The address of stake index [s] and role [t] at payment index 0. *)
Definition stakeAddress (manager : Bip32Account) (t : AddressType) (s : nat)
  : GroupedAddress :=
  deriveAddress manager
    {| AccountAddressDerivationPath.index := 0;
       AccountAddressDerivationPath.type := t |} s.

(** Payment index [p] has history on one of its two addresses. *)
Definition paymentIndexUsed (manager : Bip32Account) (provider : ChainHistoryProvider)
    (p : nat) : bool :=
  addressHasTx (paymentAddress manager External p) provider
  || addressHasTx (paymentAddress manager Internal p) provider.

Definition stakeIndexUsed (manager : Bip32Account) (provider : ChainHistoryProvider)
    (s : nat) : bool :=
  addressHasTx (stakeAddress manager External s) provider
  || addressHasTx (stakeAddress manager Internal s) provider.

(** The account copies the derivation path and the stake index into the
    address it returns, as [Bip32Account.deriveAddress] does. *)
Definition derivesFromPath (manager : Bip32Account) : Prop :=
  forall p stakeIndex,
    let a := deriveAddress manager p stakeIndex in
    index a = AccountAddressDerivationPath.index p
    /\ type a = AccountAddressDerivationPath.type p
    /\ stakeKeyDerivationPath a
       = Some {| AccountKeyDerivationPath.index := stakeIndex;
                 AccountKeyDerivationPath.role := RoleStake |}.

(** The stake index of an address, when it has a stake key path. *)
Definition stakeIndexOf (a : GroupedAddress) : option nat :=
  option_map AccountKeyDerivationPath.index (stakeKeyDerivationPath a).

(** The order of the result: by [index], then by stake key index. *)
Definition keyLe (a b : GroupedAddress) : Prop :=
  index a < index b
  \/ (index a = index b
      /\ exists sa sb, stakeIndexOf a = Some sa /\ stakeIndexOf b = Some sb /\ sa <= sb).

(** The indices of the pair do not decrease. *)
Definition indexLe (a b : GroupedAddress) : Prop := index a <= index b.

Definition maxIndex (l : list GroupedAddress) : nat :=
  fold_right Nat.max 0 (map index l).

(** ** Fixtures

    A concrete serialization, account and provider, on which the functions
    above can be run.  The serialization writes the header nibbles of an
    address (kind, network) followed by its 56-digit hashes, that is the raw
    address bytes in hexadecimal; Bech32 itself is not needed to run the
    discovery. *)
Module Fixture.

Definition kindDigit (t : Cardano.AddressType) : ascii :=
  match t with
  | Cardano.BasePaymentKeyStakeKey => "0"
  | Cardano.BasePaymentScriptStakeKey => "1"
  | Cardano.BasePaymentKeyStakeScript => "2"
  | Cardano.BasePaymentScriptStakeScript => "3"
  | Cardano.PointerKey => "4"
  | Cardano.PointerScript => "5"
  | Cardano.EnterpriseKey => "6"
  | Cardano.EnterpriseScript => "7"
  | Cardano.Byron => "8"
  | Cardano.RewardKey => "e"
  | Cardano.RewardScript => "f"
  end%char.

Definition networkDigit (n : Cardano.NetworkId) : ascii :=
  match n with
  | Cardano.Testnet => "0"
  | Cardano.Mainnet => "1"
  end%char.

Definition body (a : Cardano.Address) : string :=
  match a with
  | Cardano.OfBase b =>
      (Cardano.hash (Cardano.base_payment b)
       ++ Cardano.hash (Cardano.base_stake b))%string
  | Cardano.OfEnterprise e => Cardano.hash (Cardano.enterprise_payment e)
  | Cardano.OfPointer _ payment _ => Cardano.hash payment
  | Cardano.OfReward _ stake => Cardano.hash stake
  | Cardano.OfByron content => content
  end.

Definition encode (a : Cardano.Address) : string :=
  let n := match Cardano.networkOf a with
           | Some n => n
           | None => Cardano.Testnet
           end in
  String (kindDigit (Cardano.getType a)) (String (networkDigit n) (body a)).

Definition credential (t : Cardano.CredentialType) (h : string) : Cardano.Credential :=
  {| Cardano.hash := h; Cardano.type := t |}.

Definition decodeBody (kind : ascii) (n : Cardano.NetworkId) (rest : string)
  : option Cardano.Address :=
  let h1 := substring 0 56 rest in
  let h2 := substring 56 56 rest in
  let base p s :=
    if String.length rest =? 112
    then Some (Cardano.OfBase (Cardano.fromCredentials n (credential p h1) (credential s h2)))
    else None in
  let single (mk : Cardano.Credential -> Cardano.Address) t :=
    if String.length rest =? 56 then Some (mk (credential t h1)) else None in
  let enterprise c :=
    Cardano.OfEnterprise
      {| Cardano.enterprise_network := n; Cardano.enterprise_payment := c |} in
  if Ascii.eqb kind "0" then base Cardano.KeyHash Cardano.KeyHash
  else if Ascii.eqb kind "1" then base Cardano.ScriptHash Cardano.KeyHash
  else if Ascii.eqb kind "2" then base Cardano.KeyHash Cardano.ScriptHash
  else if Ascii.eqb kind "3" then base Cardano.ScriptHash Cardano.ScriptHash
  else if Ascii.eqb kind "4"
       then single (fun c => Cardano.OfPointer n c (0, 0, 0)) Cardano.KeyHash
  else if Ascii.eqb kind "5"
       then single (fun c => Cardano.OfPointer n c (0, 0, 0)) Cardano.ScriptHash
  else if Ascii.eqb kind "6" then single enterprise Cardano.KeyHash
  else if Ascii.eqb kind "7" then single enterprise Cardano.ScriptHash
  else if Ascii.eqb kind "8" then Some (Cardano.OfByron rest)
  else if Ascii.eqb kind "e" then single (Cardano.OfReward n) Cardano.KeyHash
  else if Ascii.eqb kind "f" then single (Cardano.OfReward n) Cardano.ScriptHash
  else None.

Definition decode (s : string) : option Cardano.Address :=
  match s with
  | String kind (String net rest) =>
      if Ascii.eqb net "0" then decodeBody kind Cardano.Testnet rest
      else if Ascii.eqb net "1" then decodeBody kind Cardano.Mainnet rest
      else None
  | _ => None
  end.

Definition serialization : Serialization :=
  {| fromString := decode;
     toBech32 := encode;
     scriptHash := fun s => substring 0 56 (Cardano.bytes s) |}.

(** A 56-digit hash for key number [i] of a role: the role tag, then [i]
    in unary, padded with zeros. *)
Fixpoint digits (c : ascii) (n : nat) : string :=
  match n with
  | O => EmptyString
  | S n' => String c (digits c n')
  end.

Definition keyHash (tag : string) (i : nat) : string :=
  (tag ++ digits "0" (54 - i) ++ digits "1" i)%string.

Definition paymentCredential (p : AccountAddressDerivationPath.t) : Cardano.Credential :=
  credential Cardano.KeyHash
    (keyHash
       match AccountAddressDerivationPath.type p with
       | External => "a0"
       | Internal => "a1"
       end%string
       (AccountAddressDerivationPath.index p)).

Definition stakeCredential (stakeIndex : nat) : Cardano.Credential :=
  credential Cardano.KeyHash (keyHash "b2"%string stakeIndex).

(** An account that fills a grouped address the way a BIP32 account does:
    the payment path and the stake index are copied into the record, the
    address is the base address of the two key hashes. *)
Definition account : Bip32Account :=
  {| deriveAddress := fun p stakeIndex =>
       {| type := AccountAddressDerivationPath.type p;
          index := AccountAddressDerivationPath.index p;
          networkId := Cardano.Testnet;
          accountIndex := 0;
          address :=
            encode (Cardano.OfBase
                      (Cardano.fromCredentials Cardano.Testnet
                         (paymentCredential p) (stakeCredential stakeIndex)));
          rewardAccount :=
            encode (Cardano.OfReward Cardano.Testnet (stakeCredential stakeIndex));
          stakeKeyDerivationPath :=
            Some {| AccountKeyDerivationPath.index := stakeIndex;
                    AccountKeyDerivationPath.role := RoleStake |} |} |}.

(** A provider that knows one transaction for each address of [used]. *)
Definition historyOf (used : list string) : ChainHistoryProvider :=
  {| transactionsByAddresses := fun args =>
       {| totalResultCount :=
            Z.of_nat
              (List.length
                 (filter (fun a => existsb (String.eqb a) used) (addresses args))) |} |}.

Definition addressAt (t : AddressType) (paymentIndex stakeIndex : nat) : string :=
  address
    (deriveAddress account
       {| AccountAddressDerivationPath.index := paymentIndex;
          AccountAddressDerivationPath.type := t |} stakeIndex).

(** No history at all. *)
Definition emptyChain : ChainHistoryProvider := historyOf [].

(** History at the external addresses of payment indices 0, 1, 2, 5 and 10
    (stake index 0). *)
Definition gapChain : ChainHistoryProvider :=
  historyOf (map (fun p => addressAt External p 0) [0; 1; 2; 5; 10]).

(** History at the external address of payment index 0, stake index 1. *)
Definition secondStakeKeyChain : ChainHistoryProvider :=
  historyOf [addressAt External 0 1].

(** History at the internal address of payment index 0, stake index 0. *)
Definition changeChain : ChainHistoryProvider :=
  historyOf [addressAt Internal 0 0].

End Fixture.


(** ** More fixtures for the discovery *)
Module DiscoveryFixture.

(** An account that hands out its reward address as payment address. *)
Definition rewardOnlyAccount : Bip32Account :=
  {| deriveAddress := fun p stakeIndex =>
       let a := deriveAddress Fixture.account p stakeIndex in
       {| type := type a;
          index := index a;
          networkId := networkId a;
          accountIndex := accountIndex a;
          address := rewardAccount a;
          rewardAccount := rewardAccount a;
          stakeKeyDerivationPath := stakeKeyDerivationPath a |} |}.

(** History at the external address of payment index 0, stake index 7. *)
Definition seventhStakeKeyChain : ChainHistoryProvider :=
  Fixture.historyOf [Fixture.addressAt External 0 7].

(** An account with the addresses of [Fixture.account] whose [index] field
    runs backwards from 20 for the payment indices above 0: the discovered
    addresses then reach the sort out of order. *)
Definition backwardAccount : Bip32Account :=
  {| deriveAddress := fun p stakeIndex =>
       let a := deriveAddress Fixture.account p stakeIndex in
       {| type := type a;
          index := if index a =? 0 then 0 else 20 - index a;
          networkId := networkId a;
          accountIndex := accountIndex a;
          address := address a;
          rewardAccount := rewardAccount a;
          stakeKeyDerivationPath := stakeKeyDerivationPath a |} |}.

(** A provider that knows a transaction for whatever address it is asked. *)
Definition busyChain : ChainHistoryProvider :=
  {| transactionsByAddresses := fun _ => {| totalResultCount := 1 |} |}.

End DiscoveryFixture.

(** * Transaction metadata *)

Module CardanoMetadata.

(** [Cardano.Metadatum] is [bigint | MetadatumMap | string | Uint8Array |
    Metadatum[]]; [Cardano.TxMetadata] is a [Map] from labels to metadata,
    kept as the list of its entries in insertion order. *)
#[local] Set Warnings "-register-all".
Inductive Metadatum : Type :=
| MInt (z : Z)
| MMap (entries : list (Metadatum * Metadatum))
| MText (s : string)
| MBytes (b : list Byte.byte)
| MList (items : list Metadatum).

Definition TxMetadata : Type := list (Z * Metadatum).

(** [Map.prototype.get] *)
Fixpoint get (label : Z) (m : TxMetadata) : option Metadatum :=
  match m with
  | [] => None
  | (k, v) :: t => if (k =? label)%Z then Some v else get label t
  end.

(** What [if (m)] tests: [0n] and the empty string are falsy, every object
    is truthy. *)
Definition truthy (m : Metadatum) : bool :=
  match m with
  | MInt z => negb (z =? 0)%Z
  | MText s => negb (String.eqb s EmptyString)
  | MMap _ | MBytes _ | MList _ => true
  end.

End CardanoMetadata.

(** * CIP-20 transaction messages

    The functions of the CIP-20 metadata module.  A JavaScript string is the
    sequence of its code units, here the code units below 256; the byte size
    of a string and the chunking of a string are [StringUtils] functions the
    module imports. *)
Module CIP20.

Definition CIP_20_METADATUM_LABEL : Z := 674.

Definition MAX_BYTES : nat := 64.

Inductive MessageValidationFailure : Type :=
| wrongType
| oversize.

(** The value of the string enum. *)
Definition failureText (f : option MessageValidationFailure) : string :=
  match f with
  | Some wrongType => "WrongType"
  | Some oversize => "Oversize"
  | None => "undefined"
  end%string.

Record MessageValidationResult : Type :=
  { valid : bool; failure : option MessageValidationFailure }.

(** An [unknown] value: a string, or anything else. *)
Inductive JsValue : Type :=
| JsString (s : string)
| JsOther.

Class StringUtils : Type :=
  { byteSize : string -> nat;
    chunkByBytes : string -> nat -> list string }.

(** [ValidationResultMap]: the entries of the [Map], in insertion order. *)
Definition ValidationResultMap : Type := list (string * MessageValidationResult).

(** [Map.prototype.set]: a known key keeps its place and takes the new
    value, a new key goes to the end. *)
Fixpoint Map_set (k : string) (v : MessageValidationResult) (m : ValidationResultMap)
  : ValidationResultMap :=
  match m with
  | [] => [(k, v)]
  | (k', v') :: t =>
      if String.eqb k' k then (k, v) :: t else (k', v') :: Map_set k v t
  end.

Inductive Thrown : Type :=
| MessageValidationError (message : string)
| TypeError.

Inductive Outcome (A : Type) : Type :=
| Returned (a : A)
| Raised (e : Thrown).

Arguments Returned {A} a.
Arguments Raised {A} e.

(** The constructor of [MessageValidationError].  [[failures.entries()]] is
    an array of one element, the iterator, and the callback of [map] takes
    the first entry out of it (taking it out of an empty iterator raises); the
    array of one text then becomes that text in the template. *)
Definition newMessageValidationError (failures : ValidationResultMap) : Thrown :=
  match failures with
  | [] => TypeError
  | (message, result) :: _ =>
      MessageValidationError
        ("The provided message array contains validation errors | "
         ++ failureText (failure result) ++ ": "
         ++ substring 0 (Nat.max 0 (MAX_BYTES + 1)) message)%string
  end.

(** [CIP20TxMetadataArgs | string] *)
Inductive Args : Type :=
| OfString (s : string)
| OfMessages (messages : list string).

Section WithStringUtils.
Context {utils : StringUtils}.

Definition validateMessage (entry : JsValue) : MessageValidationResult :=
  match entry with
  | JsOther => {| failure := Some wrongType; valid := false |}
  | JsString s =>
      if MAX_BYTES <? byteSize s
      then {| failure := Some oversize; valid := false |}
      else {| valid := true; failure := None |}
  end.

(** The messages [toCIP20Metadata] validates. *)
Definition messagesOf (args : Args) : list string :=
  match args with
  | OfString s => chunkByBytes s MAX_BYTES
  | OfMessages messages => messages
  end.

(** The loop that fills [invalidMessages]. *)
Definition invalidMessages (messages : list string) : ValidationResultMap :=
  fold_left
    (fun acc message =>
       let result := validateMessage (JsString message) in
       if negb (valid result) then Map_set message result acc else acc)
    messages [].

Definition toCIP20Metadata (args : Args) : Outcome CardanoMetadata.TxMetadata :=
  let messages := messagesOf args in
  let invalid := invalidMessages messages in
  if 0 <? List.length invalid
  then Raised (newMessageValidationError invalid)
  else Returned
         [(CIP_20_METADATUM_LABEL,
           CardanoMetadata.MMap
             [(CardanoMetadata.MText "msg",
               CardanoMetadata.MList (map CardanoMetadata.MText messages))])].
End WithStringUtils.

(** *** Fixture: UTF-8 sizes of code units below 256; a chunking that
    splits off the first two chunks *)

Fixpoint utf8Size (s : string) : nat :=
  match s with
  | EmptyString => 0
  | String c t => (if nat_of_ascii c <? 128 then 1 else 2) + utf8Size t
  end.

Definition asciiUtils : StringUtils :=
  {| byteSize := utf8Size;
     chunkByBytes := fun s n => [substring 0 n s; substring n n s] |}.

End CIP20.

(** * The Blockfrost client factory

    [getBlockfrostClient] reads [process.env] and a module-level variable.
    The variable is the state; the environment is an argument of each call.
    The defaults it takes from [@cardano-sdk/cardano-services-client] are
    parameters. *)
Module Blockfrost.

(** The three variables of [process.env] the function reads. *)
Record Env : Type :=
  { BLOCKFROST_CUSTOM_BACKEND_URL : option string;
    BLOCKFROST_API_KEY : option string;
    NETWORK : option string }.

(** What [if (v)] tests on a [string | undefined]. *)
Definition truthy (v : option string) : bool :=
  match v with
  | None => false
  | Some s => negb (String.eqb s EmptyString)
  end.

Inductive RateLimiter : Type :=
| Passthrough
| Bottleneck (reservoir reservoirIncreaseAmount reservoirIncreaseInterval
              reservoirIncreaseMaximum : nat).

(** What reading a property of [DEFAULT_BLOCKFROST_URLS] can give: a URL
    string, or the function or object that every object inherits under one
    of the names of [Object.prototype]. *)
Inductive PropertyValue : Type :=
| UrlString (url : string)
| InheritedMember (name : string).

(** The names an object literal inherits from [Object.prototype]. *)
Definition objectPrototypeMembers : list string :=
  ["constructor"; "__defineGetter__"; "__defineSetter__"; "hasOwnProperty";
   "__lookupGetter__"; "__lookupSetter__"; "isPrototypeOf";
   "propertyIsEnumerable"; "toString"; "valueOf"; "__proto__";
   "toLocaleString"]%string.

(** What [if (v)] tests on the value found: an inherited member is a
    function or an object, hence truthy. *)
Definition truthyValue (v : option PropertyValue) : bool :=
  match v with
  | None => false
  | Some (UrlString url) => negb (String.eqb url EmptyString)
  | Some (InheritedMember _) => true
  end.

(** The arguments a [BlockfrostClient] is constructed with.  [baseUrl] is
    whatever the caller passes, a string on every typed path. *)
Record BlockfrostClient : Type :=
  { apiVersion : string;
    baseUrl : PropertyValue;
    projectId : option string;
    rateLimiter : RateLimiter }.

Record RateLimitConfig : Type :=
  { size : nat; increaseAmount : nat; increaseInterval : nat }.

Class Defaults : Type :=
  { DEFAULT_BLOCKFROST_API_VERSION : string;
    DEFAULT_BLOCKFROST_RATE_LIMIT_CONFIG : RateLimitConfig;
    (** the own properties of the object [DEFAULT_BLOCKFROST_URLS] *)
    DEFAULT_BLOCKFROST_URLS : string -> option string }.

(** The module-level [blockfrostClient], and the number of clients
    constructed so far (not a variable of the source). *)
Record State : Type :=
  { blockfrostClient : option BlockfrostClient;
    constructed : nat }.

Definition initial : State := {| blockfrostClient := None; constructed := 0 |}.

Inductive Outcome : Type :=
| Returned (client : BlockfrostClient)
| Thrown (message : string).

Section WithDefaults.
Context {defaults : Defaults}.

(** [DEFAULT_BLOCKFROST_URLS[key]]: an own property first, then the
    members inherited from [Object.prototype]. *)
Definition urlProperty (key : string) : option PropertyValue :=
  match DEFAULT_BLOCKFROST_URLS key with
  | Some url => Some (UrlString url)
  | None =>
      if existsb (String.eqb key) objectPrototypeMembers
      then Some (InheritedMember key)
      else None
  end.

Definition getBlockfrostClient (env : Env) (st : State) : Outcome * State :=
  match blockfrostClient st with
  | Some client => (Returned client, st)
  | None =>
      if truthy (BLOCKFROST_CUSTOM_BACKEND_URL env) then
        let client :=
          {| apiVersion := DEFAULT_BLOCKFROST_API_VERSION;
             baseUrl := UrlString
                          match BLOCKFROST_CUSTOM_BACKEND_URL env with
                          | Some url => url
                          | None => EmptyString
                          end;
             projectId := None;
             rateLimiter := Passthrough |} in
        (Returned client,
         {| blockfrostClient := Some client; constructed := S (constructed st) |})
      else if negb (truthy (BLOCKFROST_API_KEY env)) then
        (Thrown "BLOCKFROST_API_KEY or BLOCKFROST_CUSTOM_BACKEND_URL environment variable is required",
         st)
      else if negb (truthy (NETWORK env)) then
        (Thrown "NETWORK environment variable is required", st)
      else
        let network := match NETWORK env with
                       | Some n => n
                       | None => EmptyString
                       end in
        let found := urlProperty network in
        if negb (truthyValue found) then
          (Thrown ("Unsupported NETWORK for blockfrost: " ++ network)%string, st)
        else
          let client :=
            {| apiVersion := DEFAULT_BLOCKFROST_API_VERSION;
               baseUrl := match found with
                          | Some value => value
                          | None => UrlString EmptyString
                          end;
               projectId := BLOCKFROST_API_KEY env;
               rateLimiter :=
                 Bottleneck
                   (size DEFAULT_BLOCKFROST_RATE_LIMIT_CONFIG)
                   (increaseAmount DEFAULT_BLOCKFROST_RATE_LIMIT_CONFIG)
                   (increaseInterval DEFAULT_BLOCKFROST_RATE_LIMIT_CONFIG)
                   (size DEFAULT_BLOCKFROST_RATE_LIMIT_CONFIG) |} in
          (Returned client,
           {| blockfrostClient := Some client; constructed := S (constructed st) |})
  end.

(** A sequence of calls, each under the environment of its time. *)
Fixpoint calls (envs : list Env) (st : State) : list Outcome * State :=
  match envs with
  | [] => ([], st)
  | env :: rest =>
      let (outcome, st') := getBlockfrostClient env st in
      let (outcomes, st'') := calls rest st' in
      (outcome :: outcomes, st'')
  end.
End WithDefaults.

(** *** Fixture *)

Definition sampleDefaults : Defaults :=
  {| DEFAULT_BLOCKFROST_API_VERSION := "v0";
     DEFAULT_BLOCKFROST_RATE_LIMIT_CONFIG :=
       {| size := 500; increaseAmount := 10; increaseInterval := 1000 |};
     DEFAULT_BLOCKFROST_URLS := fun network =>
       if String.eqb network "mainnet" then Some "https://cardano-mainnet.blockfrost.io"
       else if String.eqb network "preprod" then Some "https://cardano-preprod.blockfrost.io"
       else None |}%string.

Definition hostedEnv : Env :=
  {| BLOCKFROST_CUSTOM_BACKEND_URL := None;
     BLOCKFROST_API_KEY := Some "key"%string;
     NETWORK := Some "preprod"%string |}.

Definition customEnv : Env :=
  {| BLOCKFROST_CUSTOM_BACKEND_URL := Some "http://localhost:3000"%string;
     BLOCKFROST_API_KEY := None;
     NETWORK := None |}.

(** A network name that is no key of the table but a member every object
    inherits. *)
Definition constructorEnv : Env :=
  {| BLOCKFROST_CUSTOM_BACKEND_URL := None;
     BLOCKFROST_API_KEY := Some "key"%string;
     NETWORK := Some "constructor"%string |}.

Definition emptyEnv : Env :=
  {| BLOCKFROST_CUSTOM_BACKEND_URL := None;
     BLOCKFROST_API_KEY := None;
     NETWORK := None |}.

End Blockfrost.

(** * The delegation portfolio of a wallet

    [hasDelegationCert] and the function that [createDelegationPortfolioTracker]
    maps over each list of transactions the history emits.  Certificates,
    the two lists of certificate types, the metadata label and the reader of
    a CIP-17 portfolio come from [@cardano-sdk/core] and are parameters. *)
Module DelegationPortfolio.

Class Core : Type :=
  { Certificate : Type;
    CertificateType : Type;
    isCertType : Certificate -> list CertificateType -> bool;
    RegAndDeregCertificateTypes : list CertificateType;
    StakeDelegationCertificateTypes : list CertificateType;
    DelegationMetadataLabel : Z;
    Cip17DelegationPortfolio : Type;
    (** may raise on a metadatum that is no portfolio *)
    cip17FromMetadatum : CardanoMetadata.Metadatum -> Result Cip17DelegationPortfolio }.

Section WithCore.
Context {core : Core}.

Record AuxiliaryData : Type :=
  { blob : option CardanoMetadata.TxMetadata }.

Record TxBody : Type :=
  { certificates : option (list Certificate) }.

(** The fields of [Cardano.HydratedTx] that are read. *)
Record HydratedTx : Type :=
  { auxiliaryData : option AuxiliaryData;
    body : TxBody }.

Definition hasDelegationCert (certs : option (list Certificate)) : bool :=
  match certs with
  | None => false
  | Some l =>
      existsb
        (fun cert =>
           isCertType cert (RegAndDeregCertificateTypes ++ StakeDelegationCertificateTypes))
        l
  end.

(** [sorted.auxiliaryData?.blob?.get(Cardano.DelegationMetadataLabel)] *)
Definition portfolioOf (tx : HydratedTx) : option CardanoMetadata.Metadatum :=
  match auxiliaryData tx with
  | None => None
  | Some aux =>
      match blob aux with
      | None => None
      | Some metadata => CardanoMetadata.get DelegationMetadataLabel metadata
      end
  end.

(** What [if (portfolio)] tests. *)
Definition present (portfolio : option CardanoMetadata.Metadatum) : bool :=
  match portfolio with
  | None => false
  | Some m => CardanoMetadata.truthy m
  end.

(** The [for] loop over [sortedTransactions]; [None] is [null]. *)
Fixpoint portfolioLoop (sortedTransactions : list HydratedTx)
  : Result (option Cip17DelegationPortfolio) :=
  match sortedTransactions with
  | [] => Ok None
  | sorted :: rest =>
      let portfolio := portfolioOf sorted in
      let altersDelegationState := hasDelegationCert (certificates (body sorted)) in
      if negb (present portfolio) && negb altersDelegationState then portfolioLoop rest
      else if altersDelegationState && negb (present portfolio) then Ok None
      else
        match portfolio with
        | Some m =>
            if CardanoMetadata.truthy m
            then p <- cip17FromMetadatum m ;; Ok (Some p)
            else portfolioLoop rest
        | None => portfolioLoop rest
        end
  end.

(** The function mapped over the transactions. *)
Definition delegationPortfolio (hydratedTxs : list HydratedTx)
  : Result (option Cip17DelegationPortfolio) :=
  portfolioLoop (rev hydratedTxs).

(** A transaction the loop stops at: it carries a portfolio or a
    certificate that alters the delegation. *)
Definition decisive (tx : HydratedTx) : bool :=
  present (portfolioOf tx) || hasDelegationCert (certificates (body tx)).

(** What a decisive transaction makes the result. *)
Definition verdict (tx : HydratedTx) : Result (option Cip17DelegationPortfolio) :=
  match portfolioOf tx with
  | Some m =>
      if CardanoMetadata.truthy m
      then p <- cip17FromMetadatum m ;; Ok (Some p)
      else Ok None
  | None => Ok None
  end.
End WithCore.

(** *** Fixture: certificates are their type, a portfolio is its metadatum *)

Inductive SampleCertificateType : Type :=
| StakeRegistration
| StakeDeregistration
| StakeDelegation
| PoolRegistration.

Definition sampleCertificateType_eqb (a b : SampleCertificateType) : bool :=
  match a, b with
  | StakeRegistration, StakeRegistration
  | StakeDeregistration, StakeDeregistration
  | StakeDelegation, StakeDelegation
  | PoolRegistration, PoolRegistration => true
  | _, _ => false
  end.

Definition sampleCore : Core :=
  {| Certificate := SampleCertificateType;
     CertificateType := SampleCertificateType;
     isCertType := fun cert types => existsb (sampleCertificateType_eqb cert) types;
     RegAndDeregCertificateTypes := [StakeRegistration; StakeDeregistration];
     StakeDelegationCertificateTypes := [StakeDelegation];
     DelegationMetadataLabel := 6862;
     Cip17DelegationPortfolio := CardanoMetadata.Metadatum;
     cip17FromMetadatum := fun m => Ok m |}.

Definition txWith (metadata : option CardanoMetadata.TxMetadata)
    (certs : option (list SampleCertificateType)) : @HydratedTx sampleCore :=
  @Build_HydratedTx sampleCore
    (Some {| blob := metadata |})
    (@Build_TxBody sampleCore certs).

Definition portfolioTx : @HydratedTx sampleCore :=
  txWith (Some [(6862%Z, CardanoMetadata.MMap [])]) (Some [StakeDelegation]).

Definition deregistrationTx : @HydratedTx sampleCore :=
  txWith None (Some [StakeDeregistration]).

Definition paymentTx : @HydratedTx sampleCore :=
  txWith (Some [(674%Z, CardanoMetadata.MText "hi")]) (Some []).

End DelegationPortfolio.

(** * Properties *)

(** ** The error monad *)

Lemma bind_Ok_inv {A B : Type} (r : Result A) (k : A -> Result B) (b : B) :
  bind r k = Ok b -> exists a, r = Ok a /\ k a = Ok b.
Proof.
  destruct r as [a | e]; simpl; intros H.
  - exists a. split; [reflexivity | exact H].
  - discriminate H.
Qed.

(** ** Credential extractor *)

(** C8: [getPaymentCredential] returns the payment credential of every
    enterprise address and of every base address, whatever the credential
    types, and raises the unsupported-address-type error on every other
    kind (pointer, reward, byron); it raises if and only if the kind is not
    one of the six supported ones. *)
Theorem getPaymentCredential_total_on_supported :
  (forall e, getPaymentCredential (Cardano.OfEnterprise e)
             = Ok (Cardano.enterprise_payment e))
  /\ (forall b, getPaymentCredential (Cardano.OfBase b) = Ok (Cardano.base_payment b))
  /\ (forall n c p, getPaymentCredential (Cardano.OfPointer n c p)
                    = Throw UnsupportedAddressType)
  /\ (forall n c, getPaymentCredential (Cardano.OfReward n c)
                  = Throw UnsupportedAddressType)
  /\ (forall s, getPaymentCredential (Cardano.OfByron s) = Throw UnsupportedAddressType)
  /\ (forall a,
        (exists err, getPaymentCredential a = Throw err)
        <-> ~ In (Cardano.getType a)
              [Cardano.EnterpriseKey; Cardano.EnterpriseScript;
               Cardano.BasePaymentKeyStakeKey; Cardano.BasePaymentKeyStakeScript;
               Cardano.BasePaymentScriptStakeScript; Cardano.BasePaymentScriptStakeKey])
  /\ (forall a err, getPaymentCredential a = Throw err -> err = UnsupportedAddressType).
Proof.
  repeat split.
  - intros [n [h []]]; reflexivity.
  - intros [n [h1 []] [h2 []]]; reflexivity.
  - intros n [h []] p; reflexivity.
  - intros n [h []]; reflexivity.
  - intros [err H] Hin.
    destruct a as [[n [h1 []] [h2 []]] | [n [h []]] | n [h []] p | n [h []] | s];
      cbv in H; try discriminate H; simpl in Hin; intuition discriminate.
  - intros Hnot.
    destruct a as [[n [h1 []] [h2 []]] | [n [h []]] | n [h []] p | n [h []] | s];
      simpl in Hnot; try (exfalso; apply Hnot; tauto); eexists; reflexivity.
  - intros a err H.
    destruct a as [[n [h1 []] [h2 []]] | [n [h []]] | n [h []] p | n [h []] | s];
      cbv in H; congruence.
Qed.

Lemma getPaymentCredential_supported (a : Cardano.Address) :
  Cardano.supported (Cardano.getType a) = true ->
  exists c, Cardano.paymentCredentialOf a = Some c /\ getPaymentCredential a = Ok c.
Proof.
  destruct a as [[n [h1 []] [h2 []]] | [n [h []]] | n [h []] p | n [h []] | s];
    cbv; intros H; try discriminate H; eexists; split; reflexivity.
Qed.

Lemma getPaymentCredential_Ok (a : Cardano.Address) (c : Cardano.Credential) :
  getPaymentCredential a = Ok c ->
  Cardano.supported (Cardano.getType a) = true /\ Cardano.paymentCredentialOf a = Some c.
Proof.
  destruct a as [[n [h1 []] [h2 []]] | [n [h []]] | n [h []] p | n [h []] | s];
    cbv; intros H; try discriminate H; inversion H; split; reflexivity.
Qed.

(** ** Programmable address deriver *)

Section DeriverFacts.
Context {lib : Serialization}.

Lemma makeProgrammableTokenAddress_Ok (s : string) (n : Cardano.NetworkId) (out : string) :
  makeProgrammableTokenAddress s n = Ok out ->
  exists parsed c,
    fromString s = Some parsed
    /\ Cardano.supported (Cardano.getType parsed) = true
    /\ Cardano.paymentCredentialOf parsed = Some c
    /\ out = toBech32 (Cardano.OfBase
               (Cardano.fromCredentials n programmableLogicCredential c)).
Proof.
  unfold makeProgrammableTokenAddress.
  destruct (fromString s) as [parsed |]; [| discriminate].
  intros H. apply bind_Ok_inv in H. destruct H as [c [Hc Hout]].
  apply getPaymentCredential_Ok in Hc. destruct Hc as [Hs Hp].
  exists parsed, c. inversion Hout. auto.
Qed.

(** C6: on the encoding of an enterprise or base address, and for every
    network id, the transform returns the encoding of a base address on
    that network whose payment credential is the script-hash credential of
    the fixed script and whose stake credential is the payment credential
    of the input; equal inputs give the same output. *)
Theorem makeProgrammableTokenAddress_credentials
    (userAddress : string) (parsed : Cardano.Address) (networkId : Cardano.NetworkId) :
  fromString userAddress = Some parsed ->
  Cardano.supported (Cardano.getType parsed) = true ->
  exists payment out,
    Cardano.paymentCredentialOf parsed = Some payment
    /\ makeProgrammableTokenAddress userAddress networkId = Ok (toBech32 out)
    /\ Cardano.asBase out
       = Some {| Cardano.base_network := networkId;
                 Cardano.base_payment :=
                   {| Cardano.hash := scriptHash programmableLogicBase;
                      Cardano.type := Cardano.ScriptHash |};
                 Cardano.base_stake := payment |}
    /\ Cardano.networkOf out = Some networkId
    /\ (Cardano.getType out = Cardano.BasePaymentScriptStakeKey
        \/ Cardano.getType out = Cardano.BasePaymentScriptStakeScript)
    /\ (forall userAddress' networkId',
          userAddress' = userAddress -> networkId' = networkId ->
          makeProgrammableTokenAddress userAddress' networkId' = Ok (toBech32 out)).
Proof.
  intros Hparse Hsup.
  destruct (getPaymentCredential_supported parsed Hsup) as [c [Hc Hget]].
  exists c.
  exists (Cardano.OfBase (Cardano.fromCredentials networkId programmableLogicCredential c)).
  assert (Hrun : makeProgrammableTokenAddress userAddress networkId
                 = Ok (toBech32 (Cardano.OfBase
                         (Cardano.fromCredentials networkId
                            programmableLogicCredential c)))).
  { unfold makeProgrammableTokenAddress. rewrite Hparse, Hget. reflexivity. }
  repeat split; try assumption; try reflexivity.
  - simpl. destruct (Cardano.type c); [left | right]; reflexivity.
  - intros s' n' -> ->. exact Hrun.
Qed.
End DeriverFacts.

Lemma makeProgrammableTokenAddress_credentials_witness :
  exists payment out,
    Cardano.paymentCredentialOf
      (Cardano.OfBase
         (Cardano.fromCredentials Cardano.Testnet
            (Fixture.paymentCredential
               {| AccountAddressDerivationPath.index := 0;
                  AccountAddressDerivationPath.type := External |})
            (Fixture.stakeCredential 0))) = Some payment
    /\ @makeProgrammableTokenAddress Fixture.serialization
         (Fixture.addressAt External 0 0) Cardano.Mainnet
       = Ok (@toBech32 Fixture.serialization out)
    /\ Cardano.asBase out
       = Some {| Cardano.base_network := Cardano.Mainnet;
                 Cardano.base_payment :=
                   {| Cardano.hash := @scriptHash Fixture.serialization programmableLogicBase;
                      Cardano.type := Cardano.ScriptHash |};
                 Cardano.base_stake := payment |}
    /\ Cardano.networkOf out = Some Cardano.Mainnet
    /\ (Cardano.getType out = Cardano.BasePaymentScriptStakeKey
        \/ Cardano.getType out = Cardano.BasePaymentScriptStakeScript)
    /\ (forall userAddress' networkId',
          userAddress' = Fixture.addressAt External 0 0 -> networkId' = Cardano.Mainnet ->
          @makeProgrammableTokenAddress Fixture.serialization userAddress' networkId'
          = Ok (@toBech32 Fixture.serialization out)).
Proof.
  apply (@makeProgrammableTokenAddress_credentials Fixture.serialization
           (Fixture.addressAt External 0 0)).
  - vm_compute. reflexivity.
  - vm_compute. reflexivity.
Defined.

(** ** Chain scanner *)

Section ScannerFacts.
Variable account : Bip32Account.
Variable chainHistoryProvider : ChainHistoryProvider.
Variable lookAheadCount : nat.
Variable getDeriveAddressArgs : nat -> AddressType -> DeriveAddressArgs.

Local Abbreviation body := (scanBody account chainHistoryProvider getDeriveAddressArgs).
Local Abbreviation loop := (scanLoop account chainHistoryProvider lookAheadCount getDeriveAddressArgs).
Local Abbreviation used := (usedAt account chainHistoryProvider getDeriveAddressArgs).
Local Abbreviation hits := (hitsAt account chainHistoryProvider getDeriveAddressArgs).
Local Abbreviation probes := (probesAt account getDeriveAddressArgs).
Local Abbreviation hitsTo := (hitsBefore account chainHistoryProvider getDeriveAddressArgs).
Local Abbreviation probesTo := (probesBefore account getDeriveAddressArgs).
Local Abbreviation gap := (gapBefore account chainHistoryProvider getDeriveAddressArgs).
Local Abbreviation after := (stateAfter account chainHistoryProvider getDeriveAddressArgs).
Local Abbreviation quiet :=
  (quietRun account chainHistoryProvider lookAheadCount getDeriveAddressArgs).
Local Abbreviation firstQuietRun :=
  (firstQuietRun account chainHistoryProvider lookAheadCount getDeriveAddressArgs).

Lemma scanBody_eq (st : ScanState) :
  body st
  = {| currentGap := if used (currentIndex st) then 0 else S (currentGap st);
       currentIndex := S (currentIndex st);
       found := found st ++ hits (currentIndex st);
       probed := probed st ++ probes (currentIndex st) |}.
Proof.
  unfold scanBody, usedAt, hitsAt, probesAt, externalHasTx, internalHasTx.
  destruct (addressHasTx (candidate account getDeriveAddressArgs (currentIndex st) External) _),
           (addressHasTx (candidate account getDeriveAddressArgs (currentIndex st) Internal) _);
    simpl; rewrite ?app_nil_r, <- ?app_assoc; reflexivity.
Qed.

Lemma hitsBefore_S (k : nat) : hitsTo (S k) = hitsTo k ++ hits k.
Proof.
  unfold hitsBefore. rewrite seq_S, flat_map_app. simpl.
  rewrite app_nil_r. reflexivity.
Qed.

Lemma probesBefore_S (k : nat) : probesTo (S k) = probesTo k ++ probes k.
Proof.
  unfold probesBefore. rewrite seq_S, flat_map_app. simpl. reflexivity.
Qed.

Lemma stateAfter_S (k : nat) : after (S k) = body (after k).
Proof. reflexivity. Qed.

(** The loop variables after [k] rounds, in closed form. *)
Lemma stateAfter_eq (k : nat) :
  after k
  = {| currentGap := gap k; currentIndex := k;
       found := hitsTo k; probed := probesTo k |}.
Proof.
  induction k as [| k IH].
  - reflexivity.
  - rewrite stateAfter_S, IH, scanBody_eq. simpl currentIndex. simpl currentGap.
    simpl found. simpl probed.
    rewrite <- hitsBefore_S, <- probesBefore_S. reflexivity.
Qed.

Lemma hitsAt_unused (i : nat) : used i = false -> hits i = [].
Proof.
  unfold usedAt, hitsAt. intros H. apply orb_false_iff in H.
  destruct H as [-> ->]. reflexivity.
Qed.

Lemma hitsBefore_quiet (n m : nat) :
  (forall i, n <= i < n + m -> used i = false) -> hitsTo (n + m) = hitsTo n.
Proof.
  induction m as [| m IH]; intros H.
  - rewrite Nat.add_0_r. reflexivity.
  - rewrite Nat.add_succ_r, hitsBefore_S, IH.
    + rewrite hitsAt_unused; [apply app_nil_r | apply H; lia].
    + intros i Hi. apply H. lia.
Qed.

(** [gapBefore k] counts the unused positions that end at [k]. *)
Lemma gapBefore_le (k j : nat) :
  j <= gap k <-> j <= k /\ forall i, k - j <= i < k -> used i = false.
Proof.
  revert j. induction k as [| k IH]; intros j; simpl.
  - split.
    + intros H. split; [exact H | intros i Hi; lia].
    + intros [H _]. exact H.
  - destruct (used k) eqn:Hk.
    + split.
      * intros H. assert (j = 0) by lia. subst j.
        split; [lia | intros i Hi; lia].
      * intros [_ H]. destruct j as [| j]; [lia |].
        assert (used k = false) by (apply H; lia). congruence.
    + destruct j as [| j].
      * split; [intros _; split; [lia | intros i Hi; lia] | lia].
      * rewrite <- Nat.succ_le_mono, IH. simpl.
        split; intros [Hj H]; (split; [lia |]); intros i Hi.
        -- destruct (Nat.eq_dec i k) as [-> | Hne]; [exact Hk | apply H; lia].
        -- apply H. lia.
Qed.

Lemma quietRun_spec (n : nat) :
  quiet n = true <-> forall i, n <= i < n + S lookAheadCount -> used i = false.
Proof.
  unfold quietRun. rewrite forallb_forall. split.
  - intros H i Hi. apply negb_true_iff. apply H. apply in_seq. lia.
  - intros H i Hi. apply in_seq in Hi. apply negb_true_iff. apply H. lia.
Qed.

(** The guard fails after [k] rounds exactly when a quiet run ends there. *)
Lemma guard_fails_iff (k : nat) :
  lookAheadCount < gap k
  <-> S lookAheadCount <= k /\ quiet (k - S lookAheadCount) = true.
Proof.
  unfold lt. rewrite gapBefore_le, quietRun_spec.
  split; intros [Hk H]; (split; [exact Hk |]); intros i Hi; apply H; lia.
Qed.

(** The loop, started after [k] rounds, returns exactly the first later
    state whose gap exceeds the look-ahead, if the fuel reaches it. *)
Lemma scanLoop_from (fuel k : nat) (st : ScanState) :
  loop fuel (after k) = Some st
  <-> exists j, j < fuel /\ st = after (k + j)
                /\ lookAheadCount < gap (k + j)
                /\ forall i, i < j -> gap (k + i) <= lookAheadCount.
Proof.
  revert k. induction fuel as [| fuel IH]; intros k; simpl.
  - split; [discriminate | intros [j [Hj _]]; lia].
  - replace (currentGap (after k)) with (gap k)
      by (rewrite stateAfter_eq; reflexivity).
    destruct (Nat.leb_spec (gap k) lookAheadCount) as [Hle | Hgt].
    + rewrite <- stateAfter_S, IH. split.
      * intros [j [Hj [Hst [Hgap Hbefore]]]].
        exists (S j). rewrite Nat.add_succ_r. simpl in Hst, Hgap.
        repeat split; [lia | exact Hst | exact Hgap |].
        intros i Hi. destruct i as [| i].
        -- rewrite Nat.add_0_r. exact Hle.
        -- rewrite Nat.add_succ_r. apply (Hbefore i). lia.
      * intros [j [Hj [Hst [Hgap Hbefore]]]].
        destruct j as [| j].
        -- rewrite Nat.add_0_r in Hgap. lia.
        -- exists j. rewrite Nat.add_succ_r in Hst, Hgap. simpl.
           repeat split; [lia | exact Hst | exact Hgap |].
           intros i Hi. specialize (Hbefore (S i)).
           rewrite Nat.add_succ_r in Hbefore. apply Hbefore. lia.
    + split.
      * intros H. inversion H. exists 0. rewrite Nat.add_0_r.
        repeat split; [lia | exact Hgt | intros i Hi; lia].
      * intros [j [Hj [Hst [Hgap Hbefore]]]].
        destruct j as [| j].
        -- rewrite Nat.add_0_r in Hst. subst st. reflexivity.
        -- specialize (Hbefore 0). rewrite Nat.add_0_r in Hbefore.
           assert (gap k <= lookAheadCount) by (apply Hbefore; lia). lia.
Qed.
Lemma gapBefore_step (k : nat) : gap (S k) <= S (gap k).
Proof. simpl. destruct (used k); lia. Qed.

Lemma scanStart_after : scanStart = after 0.
Proof. reflexivity. Qed.

Lemma firstQuietRun_guard (n : nat) :
  firstQuietRun n ->
  gap (n + S lookAheadCount) = S lookAheadCount
  /\ forall i, i < n + S lookAheadCount -> gap i <= lookAheadCount.
Proof.
  intros [Hq Hmin].
  assert (Hbefore : forall i, i < n + S lookAheadCount -> gap i <= lookAheadCount).
  { intros i Hi. destruct (Nat.le_gt_cases (gap i) lookAheadCount) as [H | H];
      [exact H |].
    apply guard_fails_iff in H. destruct H as [Hle Hqi].
    rewrite Hmin in Hqi by lia. discriminate Hqi. }
  split; [| exact Hbefore].
  assert (Hup : lookAheadCount < gap (n + S lookAheadCount)).
  { apply guard_fails_iff. split; [lia |].
    replace (n + S lookAheadCount - S lookAheadCount) with n by lia. exact Hq. }
  assert (Hlo : gap (n + S lookAheadCount) <= S lookAheadCount).
  { rewrite Nat.add_succ_r. etransitivity; [apply gapBefore_step |].
    apply le_n_S. apply Hbefore. lia. }
  lia.
Qed.

Lemma scanLoop_stops (fuel : nat) (st : ScanState) :
  loop fuel scanStart = Some st ->
  exists n, firstQuietRun n /\ n + S lookAheadCount < fuel
            /\ st = after (n + S lookAheadCount).
Proof.
  rewrite scanStart_after. intros H. apply scanLoop_from in H.
  destruct H as [j [Hj [Hst [Hgap Hbefore]]]]. simpl in Hst, Hgap, Hbefore.
  apply guard_fails_iff in Hgap. destruct Hgap as [Hle Hq].
  exists (j - S lookAheadCount).
  replace (j - S lookAheadCount + S lookAheadCount) with j by lia.
  repeat split; [exact Hq | | exact Hj | exact Hst].
  intros m Hm. destruct (quiet m) eqn:Hqm; [| reflexivity].
  assert (Hlt : lookAheadCount < gap (m + S lookAheadCount)).
  { apply guard_fails_iff. split; [lia |].
    replace (m + S lookAheadCount - S lookAheadCount) with m by lia. exact Hqm. }
  assert (gap (m + S lookAheadCount) <= lookAheadCount) by (apply Hbefore; lia).
  lia.
Qed.

Lemma scanLoop_reaches (n fuel : nat) :
  firstQuietRun n -> n + S lookAheadCount < fuel ->
  loop fuel scanStart = Some (after (n + S lookAheadCount)).
Proof.
  intros Hn Hfuel. destruct (firstQuietRun_guard Hn) as [Hgap Hbefore].
  rewrite scanStart_after. apply scanLoop_from.
  exists (n + S lookAheadCount). simpl.
  repeat split; [exact Hfuel | lia | exact Hbefore].
Qed.

Lemma firstQuietRun_unique (n m : nat) : firstQuietRun n -> firstQuietRun m -> n = m.
Proof.
  intros [Hn Hnmin] [Hm Hmmin].
  destruct (Nat.lt_trichotomy n m) as [H | [H | H]]; [| exact H |].
  - rewrite (Hmmin n H) in Hn. discriminate Hn.
  - rewrite (Hnmin m H) in Hm. discriminate Hm.
Qed.

(** C1: each round of the scanner probes the external and the internal
    address of the current position, appends those with history, resets the
    gap on a hit and increments it otherwise, and advances the position;
    the loop ends exactly when the gap first exceeds the look-ahead, that
    is after the first [lookAheadCount + 1] consecutive unused positions,
    which begin at position 0 or right after a hit. *)
Theorem discoverAddresses_gap_limit :
  (forall st,
      body st
      = {| currentGap := if used (currentIndex st) then 0 else S (currentGap st);
           currentIndex := S (currentIndex st);
           found := found st ++ hits (currentIndex st);
           probed := probed st ++ probes (currentIndex st) |})
  /\ (forall n,
        quiet n = true -> (forall m, m < n -> quiet m = false) ->
        (n = 0 \/ used (n - 1) = true)
        /\ (forall fuel, fuel <= n + lookAheadCount + 1 -> loop fuel scanStart = None)
        /\ (forall fuel,
              n + lookAheadCount + 1 < fuel ->
              loop fuel scanStart
              = Some {| currentGap := lookAheadCount + 1;
                        currentIndex := n + lookAheadCount + 1;
                        found := hitsTo n;
                        probed := probesTo (n + lookAheadCount + 1) |}))
  /\ (forall fuel st,
        loop fuel scanStart = Some st ->
        exists n,
          quiet n = true /\ (forall m, m < n -> quiet m = false)
          /\ currentIndex st = n + lookAheadCount + 1
          /\ currentGap st = lookAheadCount + 1).
Proof.
  split; [exact scanBody_eq |]. split.
  - intros n Hq Hmin.
    assert (Hn : firstQuietRun n) by (split; assumption).
    replace (n + lookAheadCount + 1) with (n + S lookAheadCount) by lia.
    replace (lookAheadCount + 1) with (S lookAheadCount) by lia.
    destruct (firstQuietRun_guard Hn) as [Hgap Hbefore].
    split; [| split].
    + destruct n as [| n]; [left; reflexivity | right].
      simpl. rewrite Nat.sub_0_r.
      destruct (used n) eqn:Hu; [reflexivity |].
      assert (Hq' : quiet n = true).
      { apply quietRun_spec. intros i Hi.
        destruct (Nat.eq_dec i n) as [-> | Hne]; [exact Hu |].
        apply (proj1 (quietRun_spec (S n)) Hq). lia. }
      rewrite Hmin in Hq' by lia. discriminate Hq'.
    + intros fuel Hfuel. destruct (loop fuel scanStart) as [st |] eqn:Hrun;
        [| reflexivity].
      apply scanLoop_stops in Hrun. destruct Hrun as [m [Hm [Hlt _]]].
      rewrite (firstQuietRun_unique Hm Hn) in Hlt. lia.
    + intros fuel Hfuel. rewrite (scanLoop_reaches Hn Hfuel), stateAfter_eq, Hgap.
      rewrite hitsBefore_quiet; [reflexivity |].
      apply quietRun_spec. exact Hq.
  - intros fuel st Hrun. apply scanLoop_stops in Hrun.
    destruct Hrun as [n [Hn [_ Hst]]]. exists n.
    destruct (firstQuietRun_guard Hn) as [Hgap _].
    destruct Hn as [Hq Hmin].
    replace (n + lookAheadCount + 1) with (n + S lookAheadCount) by lia.
    replace (lookAheadCount + 1) with (S lookAheadCount) by lia.
    subst st. rewrite stateAfter_eq. simpl. auto.
Qed.
Lemma hitsAt_filter (i : nat) :
  hits i = filter (fun a => addressHasTx a chainHistoryProvider) (probes i).
Proof.
  unfold hitsAt, probesAt, externalHasTx, internalHasTx. simpl.
  destruct (addressHasTx (candidate account getDeriveAddressArgs i External) _),
           (addressHasTx (candidate account getDeriveAddressArgs i Internal) _);
    reflexivity.
Qed.

Lemma hitsBefore_filter (k : nat) :
  hitsTo k = filter (fun a => addressHasTx a chainHistoryProvider) (probesTo k).
Proof.
  induction k as [| k IH]; [reflexivity |].
  rewrite hitsBefore_S, probesBefore_S, filter_app, IH, hitsAt_filter. reflexivity.
Qed.

(** C7: whatever the oracle and the look-ahead, every address in the
    list a scan has built, after any number of rounds and in particular
    when it returns, had its own usage check answer true; the addresses
    that were probed and answered false are not in it. *)
Theorem discoverAddresses_only_used :
  (forall k,
      found (after k)
      = filter (fun a => addressHasTx a chainHistoryProvider) (probed (after k)))
  /\ (forall k a, In a (found (after k)) -> addressHasTx a chainHistoryProvider = true)
  /\ (forall fuel result,
        discoverAddresses account chainHistoryProvider lookAheadCount
          getDeriveAddressArgs fuel = Some result ->
        Forall (fun a => addressHasTx a chainHistoryProvider = true) result).
Proof.
  assert (Hfilter : forall k,
             found (after k)
             = filter (fun a => addressHasTx a chainHistoryProvider) (probed (after k))).
  { intros k. rewrite stateAfter_eq. simpl. apply hitsBefore_filter. }
  assert (Hin : forall k a,
             In a (found (after k)) -> addressHasTx a chainHistoryProvider = true).
  { intros k a Ha. rewrite Hfilter in Ha. apply filter_In in Ha. apply Ha. }
  split; [exact Hfilter |]. split; [exact Hin |].
  intros fuel result Hrun. unfold discoverAddresses in Hrun.
  destruct (loop fuel scanStart) as [st |] eqn:Hloop; [| discriminate Hrun].
  inversion Hrun; subst result.
  apply scanLoop_stops in Hloop. destruct Hloop as [n [_ [_ ->]]].
  apply Forall_forall. intros a Ha. exact (Hin _ a Ha).
Qed.
End ScannerFacts.

Lemma gapChain_firstQuietRun :
  quietRun Fixture.account Fixture.gapChain 3 paymentKeyArgs 5 = true
  /\ forall m, m < 5 -> quietRun Fixture.account Fixture.gapChain 3 paymentKeyArgs m = false.
Proof.
  split; [vm_compute; reflexivity |].
  intros m Hm. do 5 (destruct m as [| m]; [vm_compute; reflexivity |]). lia.
Defined.

Lemma discoverAddresses_gap_limit_witness :
  scanLoop Fixture.account Fixture.gapChain 3 paymentKeyArgs 10 scanStart
  = Some {| currentGap := 3 + 1;
            currentIndex := 5 + 3 + 1;
            found := hitsBefore Fixture.account Fixture.gapChain paymentKeyArgs 5;
            probed := probesBefore Fixture.account paymentKeyArgs (5 + 3 + 1) |}.
Proof.
  apply (proj2 (proj2 (proj1 (proj2
           (discoverAddresses_gap_limit Fixture.account Fixture.gapChain 3 paymentKeyArgs))
           5 (proj1 gapChain_firstQuietRun) (proj2 gapChain_firstQuietRun)))).
  vm_compute. reflexivity.
Defined.

Lemma discoverAddresses_only_used_witness :
  Forall (fun a => addressHasTx a Fixture.gapChain = true)
    [paymentAddress Fixture.account External 1;
     paymentAddress Fixture.account External 2;
     paymentAddress Fixture.account External 5].
Proof.
  apply (proj2 (proj2
           (discoverAddresses_only_used Fixture.account Fixture.gapChain 3 paymentKeyArgs))
           10).
  vm_compute. reflexivity.
Defined.

(** ** The payment-chain pass *)

Section PaymentPass.
Variable manager : Bip32Account.
Variable provider : ChainHistoryProvider.

Lemma paymentKeyArgs_candidate (i : nat) (t : AddressType) :
  candidate manager paymentKeyArgs i t = paymentAddress manager t (i + 1).
Proof. reflexivity. Qed.

Lemma paymentKeyArgs_usedAt (i : nat) :
  usedAt manager provider paymentKeyArgs i = paymentIndexUsed manager provider (i + 1).
Proof. reflexivity. Qed.

Lemma stakeKeyArgs_candidate (i : nat) (t : AddressType) :
  candidate manager stakeKeyArgs i t = stakeAddress manager t (i + 1).
Proof. reflexivity. Qed.

Lemma stakeKeyArgs_usedAt (i : nat) :
  usedAt manager provider stakeKeyArgs i = stakeIndexUsed manager provider (i + 1).
Proof. reflexivity. Qed.

End PaymentPass.

Lemma gapChain_exactly_0_1_2_5 :
  forall p, p <= 9 ->
    paymentIndexUsed Fixture.account Fixture.gapChain p = existsb (Nat.eqb p) [0; 1; 2; 5].
Proof.
  intros p Hp. do 10 (destruct p as [| p]; [vm_compute; reflexivity |]). lia.
Defined.


(** ** Lists: deduplication, indexed map, last and greatest index *)

Lemma uniqByFrom_In (seen : list string) (l : list GroupedAddress) (a : GroupedAddress) :
  In a (uniqByFrom seen l) -> In a l /\ ~ In (address a) seen.
Proof.
  revert seen. induction l as [| x t IH]; intros seen; simpl; [tauto |].
  destruct (existsb (String.eqb (address x)) seen) eqn:Hseen.
  - intros H. apply IH in H. tauto.
  - intros [<- | H].
    + split; [left; reflexivity |].
      intros Hin. assert (existsb (String.eqb (address x)) seen = true); [| congruence].
      apply existsb_exists. exists (address x). split; [exact Hin | apply String.eqb_refl].
    + apply IH in H. destruct H as [Hin Hnot]. split; [right; exact Hin |].
      intros Hs. apply Hnot. right. exact Hs.
Qed.

Lemma uniqByFrom_NoDup (seen : list string) (l : list GroupedAddress) :
  NoDup (map address (uniqByFrom seen l)).
Proof.
  revert seen. induction l as [| x t IH]; intros seen; simpl; [constructor |].
  destruct (existsb (String.eqb (address x)) seen); [apply IH |].
  simpl. constructor; [| apply IH].
  intros Hin. apply in_map_iff in Hin. destruct Hin as [b [Hb Hin]].
  apply uniqByFrom_In in Hin. destruct Hin as [_ Hnot]. apply Hnot.
  left. symmetry. exact Hb.
Qed.

Lemma existsb_eqb_In (s : string) (seen : list string) :
  existsb (String.eqb s) seen = true <-> In s seen.
Proof.
  rewrite existsb_exists. split.
  - intros [y [Hy Heq]]. apply String.eqb_eq in Heq. subst y. exact Hy.
  - intros H. exists s. split; [exact H | apply String.eqb_refl].
Qed.

Lemma uniqByFrom_keys (seen : list string) (l : list GroupedAddress) (s : string) :
  In s (map address l) -> In s seen \/ In s (map address (uniqByFrom seen l)).
Proof.
  revert seen. induction l as [| x t IH]; intros seen; simpl; [tauto |].
  destruct (existsb (String.eqb (address x)) seen) eqn:Hseen.
  - intros [<- | H]; [left; apply existsb_eqb_In; exact Hseen | apply IH; exact H].
  - intros [<- | H]; [right; left; reflexivity |].
    destruct (IH (address x :: seen) H) as [[<- | Hs] | Hin]; simpl; auto.
Qed.

(** Every kept entry is the first one of its key. *)
Lemma uniqByFrom_first (seen : list string) (l : list GroupedAddress) (a : GroupedAddress) :
  In a (uniqByFrom seen l) ->
  exists l1 l2, l = l1 ++ a :: l2 /\ ~ In (address a) (map address l1).
Proof.
  revert seen. induction l as [| x t IH]; intros seen; simpl; [tauto |].
  destruct (existsb (String.eqb (address x)) seen) eqn:Hseen.
  - intros H. pose proof (uniqByFrom_In _ _ _ H) as [_ Hnot].
    destruct (IH _ H) as [l1 [l2 [-> Hfirst]]].
    exists (x :: l1), l2. split; [reflexivity |].
    simpl. intros [Heq | Hin]; [| exact (Hfirst Hin)].
    apply Hnot. rewrite <- Heq. apply existsb_eqb_In. exact Hseen.
  - intros [<- | H].
    + exists [], t. split; [reflexivity | simpl; tauto].
    + pose proof (uniqByFrom_In _ _ _ H) as [_ Hnot].
      destruct (IH _ H) as [l1 [l2 [-> Hfirst]]].
      exists (x :: l1), l2. split; [reflexivity |].
      simpl. intros [Heq | Hin]; [| exact (Hfirst Hin)].
      apply Hnot. left. exact Heq.
Qed.

Lemma uniqByFrom_StronglySorted (R : GroupedAddress -> GroupedAddress -> Prop)
    (seen : list string) (l : list GroupedAddress) :
  StronglySorted R l -> StronglySorted R (uniqByFrom seen l).
Proof.
  revert seen. induction l as [| x t IH]; intros seen Hs; simpl; [constructor |].
  inversion Hs as [| ? ? Ht Hx]; subst.
  destruct (existsb (String.eqb (address x)) seen); [apply IH; exact Ht |].
  constructor; [apply IH; exact Ht |].
  apply Forall_forall. intros b Hb. apply uniqByFrom_In in Hb.
  rewrite Forall_forall in Hx. apply Hx. apply Hb.
Qed.

Lemma uniqBy_head (x : GroupedAddress) (l : list GroupedAddress) :
  uniqBy (x :: l) = x :: uniqByFrom [address x] l.
Proof. reflexivity. Qed.

Lemma maxIndex_In (l : list GroupedAddress) (a : GroupedAddress) :
  In a l -> index a <= maxIndex l.
Proof.
  unfold maxIndex. induction l as [| x t IH]; simpl; [tauto |].
  intros [<- | H]; [lia | specialize (IH H); lia].
Qed.

Lemma maxIndex_bound (l : list GroupedAddress) (m : nat) :
  (forall a, In a l -> index a <= m) -> maxIndex l <= m.
Proof.
  unfold maxIndex. induction l as [| x t IH]; simpl; intros H; [lia |].
  assert (index x <= m) by (apply H; auto).
  assert (fold_right Nat.max 0 (map index t) <= m) by (apply IH; intros; apply H; auto).
  lia.
Qed.

Lemma StronglySorted_app_inv (R : GroupedAddress -> GroupedAddress -> Prop)
    (l : list GroupedAddress) (a : GroupedAddress) :
  StronglySorted R (l ++ [a]) -> forall x, In x l -> R x a.
Proof.
  induction l as [| y t IH]; simpl; intros Hs x Hx; [tauto |].
  inversion Hs as [| ? ? Ht Hy]; subst.
  destruct Hx as [<- | Hx].
  - rewrite Forall_forall in Hy. apply Hy. apply in_or_app. right. left. reflexivity.
  - apply IH; assumption.
Qed.

Lemma StronglySorted_app (R : GroupedAddress -> GroupedAddress -> Prop)
    (l1 l2 : list GroupedAddress) :
  StronglySorted R l1 -> StronglySorted R l2 ->
  (forall x y, In x l1 -> In y l2 -> R x y) ->
  StronglySorted R (l1 ++ l2).
Proof.
  induction l1 as [| x t IH]; simpl; intros H1 H2 H; [exact H2 |].
  inversion H1 as [| ? ? Ht Hx]; subst.
  constructor.
  - apply IH; [exact Ht | exact H2 | intros; apply H; auto].
  - apply Forall_app. split; [exact Hx |].
    apply Forall_forall. intros y Hy. apply H; auto.
Qed.

(** In a list whose indices never decrease, the last index is the greatest. *)
Lemma lastIndex_maxIndex (l : list GroupedAddress) :
  StronglySorted indexLe l -> l <> [] -> lastIndex l = Ok (maxIndex l).
Proof.
  destruct l as [| x t] using rev_ind; [congruence |].
  intros Hs _. unfold lastIndex. rewrite rev_app_distr. simpl. f_equal.
  apply Nat.le_antisymm.
  - apply maxIndex_In. apply in_or_app. right. left. reflexivity.
  - apply maxIndex_bound. intros a Ha. apply in_app_or in Ha.
    destruct Ha as [Ha | [<- | []]]; [| lia].
    exact (@StronglySorted_app_inv indexLe t x Hs a Ha).
Qed.

Lemma mapi_from_nth {A B : Type} (f : A -> nat -> Result B) (l : list A)
    (start : nat) (r : list B) :
  mapi_from f start l = Ok r ->
  List.length r = List.length l
  /\ forall i a, nth_error l i = Some a ->
       exists b, nth_error r i = Some b /\ f a (start + i) = Ok b.
Proof.
  revert start r. induction l as [| x t IH]; intros start r; simpl.
  - intros H. inversion H. split; [reflexivity |].
    intros i a Hi. destruct i; discriminate Hi.
  - intros H. apply bind_Ok_inv in H. destruct H as [b [Hb H]].
    apply bind_Ok_inv in H. destruct H as [bs [Hbs H]]. inversion H; subst r.
    destruct (IH _ _ Hbs) as [Hlen Hnth]. split; [simpl; congruence |].
    intros i a Hi. destruct i as [| i]; simpl in Hi.
    + inversion Hi; subst a. exists b. rewrite Nat.add_0_r. auto.
    + destruct (Hnth i a Hi) as [b' [Hb' Hf]]. exists b'.
      rewrite Nat.add_succ_r. auto.
Qed.

Lemma mapi_from_total {A B : Type} (f : A -> nat -> Result B) (l : list A) (start : nat) :
  (forall a i, In a l -> exists b, f a i = Ok b) ->
  exists r, mapi_from f start l = Ok r.
Proof.
  revert start. induction l as [| x t IH]; intros start H; simpl.
  - exists []. reflexivity.
  - destruct (H x start (or_introl eq_refl)) as [b ->].
    destruct (IH (S start)) as [bs ->]; [intros; apply H; right; assumption |].
    exists (b :: bs). reflexivity.
Qed.

(** ** The comparator and the sort *)

Lemma compareFn_le (x y : GroupedAddress) (c : Z) :
  compareFn x y = Ok c -> (c <= 0)%Z -> keyLe x y.
Proof.
  unfold compareFn, keyLe, stakeIndexOf.
  destruct (Z.eqb_spec (Z.of_nat (index x) - Z.of_nat (index y)) 0) as [Hd | Hd].
  - destruct (stakeKeyDerivationPath x) as [sa |], (stakeKeyDerivationPath y) as [sb |];
      try discriminate.
    intros H Hc. inversion H; subst c. right. split; [lia |].
    exists (AccountKeyDerivationPath.index sa), (AccountKeyDerivationPath.index sb).
    simpl. repeat split. lia.
  - intros H Hc. inversion H; subst c. left. lia.
Qed.

Lemma compareFn_gt (x y : GroupedAddress) (c : Z) :
  compareFn x y = Ok c -> (0 < c)%Z -> keyLe y x.
Proof.
  unfold compareFn, keyLe, stakeIndexOf.
  destruct (Z.eqb_spec (Z.of_nat (index x) - Z.of_nat (index y)) 0) as [Hd | Hd].
  - destruct (stakeKeyDerivationPath x) as [sa |], (stakeKeyDerivationPath y) as [sb |];
      try discriminate.
    intros H Hc. inversion H; subst c. right. split; [lia |].
    exists (AccountKeyDerivationPath.index sb), (AccountKeyDerivationPath.index sa).
    simpl. repeat split. lia.
  - intros H Hc. inversion H; subst c. left. lia.
Qed.

Lemma keyLe_trans (a b c : GroupedAddress) : keyLe a b -> keyLe b c -> keyLe a c.
Proof.
  unfold keyLe.
  intros [Hab | [Hab [sa [sb [Ha [Hb Hle]]]]]] [Hbc | [Hbc [sb' [sc [Hb' [Hc Hle']]]]]].
  - left. lia.
  - left. lia.
  - left. lia.
  - right. split; [lia |]. exists sa, sc.
    rewrite Hb in Hb'. inversion Hb'; subst sb'. repeat split; [assumption .. | lia].
Qed.

Lemma insertSorted_Permutation (x : GroupedAddress) (l r : list GroupedAddress) :
  insertSorted x l = Ok r -> Permutation (x :: l) r.
Proof.
  revert r. induction l as [| y ys IH]; intros r; simpl.
  - intros H. inversion H. apply Permutation_refl.
  - intros H. apply bind_Ok_inv in H. destruct H as [c [_ H]].
    destruct (c <=? 0)%Z.
    + inversion H. apply Permutation_refl.
    + apply bind_Ok_inv in H. destruct H as [r' [Hr' H]]. inversion H; subst r.
      eapply Permutation_trans; [apply perm_swap |].
      apply perm_skip. apply IH. exact Hr'.
Qed.

Lemma sort_Permutation (l r : list GroupedAddress) : sort l = Ok r -> Permutation l r.
Proof.
  revert r. induction l as [| x t IH]; intros r; simpl.
  - intros H. inversion H. apply Permutation_refl.
  - intros H. apply bind_Ok_inv in H. destruct H as [s [Hs H]].
    eapply Permutation_trans; [apply perm_skip; apply IH; exact Hs |].
    apply insertSorted_Permutation. exact H.
Qed.

Lemma insertSorted_Sorted (x : GroupedAddress) (l r : list GroupedAddress) :
  Sorted keyLe l -> insertSorted x l = Ok r ->
  Sorted keyLe r /\ forall z, HdRel keyLe z l -> keyLe z x -> HdRel keyLe z r.
Proof.
  revert r. induction l as [| y ys IH]; intros r Hl; simpl.
  - intros H. inversion H. split; [repeat constructor |].
    intros z _ Hz. constructor. exact Hz.
  - intros H. apply bind_Ok_inv in H. destruct H as [c [Hc H]].
    inversion Hl as [| ? ? Hys Hy]; subst.
    destruct (Z.leb_spec c 0) as [Hle | Hgt].
    + inversion H; subst r. split.
      * constructor; [exact Hl |]. constructor. exact (compareFn_le _ _ Hc Hle).
      * intros z _ Hz. constructor. exact Hz.
    + apply bind_Ok_inv in H. destruct H as [r' [Hr' H]]. inversion H; subst r.
      destruct (IH _ Hys Hr') as [Hsorted Hhd]. split.
      * constructor; [exact Hsorted |].
        apply Hhd; [exact Hy | exact (compareFn_gt _ _ Hc Hgt)].
      * intros z Hz _. inversion Hz; subst. constructor. assumption.
Qed.

Lemma sort_Sorted (l r : list GroupedAddress) : sort l = Ok r -> Sorted keyLe r.
Proof.
  revert r. induction l as [| x t IH]; intros r; simpl.
  - intros H. inversion H. constructor.
  - intros H. apply bind_Ok_inv in H. destruct H as [s [Hs H]].
    exact (proj1 (insertSorted_Sorted x (IH _ Hs) H)).
Qed.

Lemma sort_StronglySorted (l r : list GroupedAddress) :
  sort l = Ok r -> StronglySorted keyLe r.
Proof.
  intros H. apply Sorted_StronglySorted.
  - intros a b c. apply keyLe_trans.
  - exact (sort_Sorted _ H).
Qed.

(** An entry with index 0 and stake key index 0 at the head of the input
    stays at the head: no entry is below it, and the sort is stable. *)
Lemma sort_head (x : GroupedAddress) (l r : list GroupedAddress) :
  index x = 0 -> stakeIndexOf x = Some 0 ->
  sort (x :: l) = Ok r -> exists tail, r = x :: tail /\ sort l = Ok tail.
Proof.
  intros Hi Hs H. simpl in H. apply bind_Ok_inv in H. destruct H as [s [Hsort H]].
  destruct s as [| y ys]; simpl in H.
  - inversion H. exists []. auto.
  - apply bind_Ok_inv in H. destruct H as [c [Hc H]].
    assert (Hle : (c <= 0)%Z).
    { unfold compareFn in Hc. rewrite Hi in Hc.
      unfold stakeIndexOf in Hs.
      destruct (stakeKeyDerivationPath x) as [sa |]; [| discriminate Hs].
      simpl in Hs. inversion Hs as [Hsa].
      destruct (Z.eqb_spec (Z.of_nat 0 - Z.of_nat (index y)) 0).
      - destruct (stakeKeyDerivationPath y) as [sb |]; [| discriminate Hc].
        inversion Hc. rewrite Hsa. lia.
      - inversion Hc. lia. }
    destruct (Z.leb_spec c 0); [| lia].
    inversion H. exists (y :: ys). auto.
Qed.

(** The sort returns when every entry has a stake key path. *)
Lemma insertSorted_total (x : GroupedAddress) (l : list GroupedAddress) :
  stakeKeyDerivationPath x <> None ->
  Forall (fun a => stakeKeyDerivationPath a <> None) l ->
  exists r, insertSorted x l = Ok r.
Proof.
  intros Hx. induction l as [| y ys IH]; intros Hl; simpl.
  - exists [x]. reflexivity.
  - inversion Hl as [| ? ? Hy Hys]; subst.
    assert (Hc : exists c, compareFn x y = Ok c).
    { unfold compareFn.
      destruct (Z.eqb (Z.of_nat (index x) - Z.of_nat (index y)) 0); [| eexists; reflexivity].
      destruct (stakeKeyDerivationPath x); [| congruence].
      destruct (stakeKeyDerivationPath y); [| congruence].
      eexists; reflexivity. }
    destruct Hc as [c ->]. simpl.
    destruct (c <=? 0)%Z; [eexists; reflexivity |].
    destruct (IH Hys) as [r ->]. eexists; reflexivity.
Qed.

Lemma sort_total (l : list GroupedAddress) :
  Forall (fun a => stakeKeyDerivationPath a <> None) l -> exists r, sort l = Ok r.
Proof.
  induction l as [| x t IH]; intros Hl; simpl.
  - exists []. reflexivity.
  - inversion Hl as [| ? ? Hx Ht]; subst.
    destruct (IH Ht) as [s Hs]. rewrite Hs. simpl.
    apply insertSorted_total; [exact Hx |].
    apply Forall_forall. intros a Ha.
    rewrite Forall_forall in Ht. apply Ht.
    apply (Permutation_in a (Permutation_sym (sort_Permutation _ Hs))). exact Ha.
Qed.

(** ** What a scan returns *)

Lemma discoverAddresses_hits (account : Bip32Account) (provider : ChainHistoryProvider)
    (lookAhead : nat) (args : nat -> AddressType -> DeriveAddressArgs)
    (fuel : nat) (l : list GroupedAddress) :
  discoverAddresses account provider lookAhead args fuel = Some l ->
  exists k, l = hitsBefore account provider args k.
Proof.
  unfold discoverAddresses. intros H.
  destruct (scanLoop account provider lookAhead args fuel scanStart) as [st |] eqn:Hloop;
    [| discriminate H].
  inversion H; subst l.
  apply scanLoop_stops in Hloop. destruct Hloop as [n [_ [_ ->]]].
  exists (n + S lookAhead). rewrite stateAfter_eq. reflexivity.
Qed.

Lemma hitsAt_In (account : Bip32Account) (provider : ChainHistoryProvider)
    (args : nat -> AddressType -> DeriveAddressArgs) (i : nat) (a : GroupedAddress) :
  In a (hitsAt account provider args i) ->
  exists t, a = candidate account args i t /\ addressHasTx a provider = true.
Proof.
  rewrite hitsAt_filter. intros H. apply filter_In in H. destruct H as [Hin Hused].
  destruct Hin as [<- | [<- | []]]; [exists External | exists Internal]; auto.
Qed.

Lemma hitsBefore_In (account : Bip32Account) (provider : ChainHistoryProvider)
    (args : nat -> AddressType -> DeriveAddressArgs) (k : nat) (a : GroupedAddress) :
  In a (hitsBefore account provider args k) ->
  exists i t, i < k /\ a = candidate account args i t /\ addressHasTx a provider = true.
Proof.
  unfold hitsBefore. intros H. apply in_flat_map in H. destruct H as [i [Hi Ha]].
  apply in_seq in Hi. apply hitsAt_In in Ha. destruct Ha as [t [Ha Hu]].
  exists i, t. repeat split; [lia | exact Ha | exact Hu].
Qed.

Section OrchestratorFacts.
Context {lib : Serialization}.
Variable this : HDSequentialDiscovery.
Variable manager : Bip32Account.

Local Abbreviation provider := (this_chainHistoryProvider this).

Lemma firstAddresses_head :
  exists rest, firstAddresses this manager = firstExternalAddress manager :: rest
               /\ forall a, In a rest -> a = firstInternalAddress manager.
Proof.
  unfold firstAddresses.
  destruct (addressHasTx (firstInternalAddress manager) provider).
  - exists [firstInternalAddress manager]. split; [reflexivity |].
    intros a [<- | []]. reflexivity.
  - exists []. split; [reflexivity | intros a []].
Qed.

Lemma discoveredAddresses_inv (fuel : nat) (addrs : list GroupedAddress) :
  discoveredAddresses this manager fuel = Some addrs ->
  exists stakeKeys paymentKeys,
    stakeKeyAddresses this manager fuel = Some stakeKeys
    /\ paymentKeyAddresses this manager fuel = Some paymentKeys
    /\ addrs = uniqBy (firstAddresses this manager ++ stakeKeys ++ paymentKeys).
Proof.
  unfold discoveredAddresses. intros H.
  destruct (stakeKeyAddresses this manager fuel) as [stakeKeys |]; [| discriminate H].
  destruct (paymentKeyAddresses this manager fuel) as [paymentKeys |]; [| discriminate H].
  inversion H. exists stakeKeys, paymentKeys. auto.
Qed.

Lemma discoveredAddresses_head (fuel : nat) (addrs : list GroupedAddress) :
  discoveredAddresses this manager fuel = Some addrs ->
  exists rest, addrs = firstExternalAddress manager :: rest.
Proof.
  intros H. apply discoveredAddresses_inv in H.
  destruct H as [stakeKeys [paymentKeys [_ [_ ->]]]].
  destruct firstAddresses_head as [rest [-> _]].
  simpl. rewrite uniqBy_head. eexists. reflexivity.
Qed.

Lemma discover_inv (fuel : nat) (result : list GroupedAddress) :
  discover this manager fuel = Some (Ok result) ->
  exists addrs progs,
    discoveredAddresses this manager fuel = Some addrs
    /\ progTokenAddresses addrs = Ok progs
    /\ sort (addrs ++ progs) = Ok result.
Proof.
  unfold discover. intros H.
  destruct (discoveredAddresses this manager fuel) as [addrs |]; [| discriminate H].
  simpl in H. injection H as Hwith. unfold withProgrammable in Hwith.
  apply bind_Ok_inv in Hwith. destruct Hwith as [progs [Hprogs Hsort]].
  exists addrs, progs. repeat split; assumption.
Qed.

Lemma progTokenAddress_fields (lastIdx idx : nat) (a p : GroupedAddress) :
  progTokenAddress lastIdx a idx = Ok p ->
  makeProgrammableTokenAddress (address a) (networkId a) = Ok (address p)
  /\ index p = lastIdx + idx + 1
  /\ type p = type a
  /\ networkId p = networkId a
  /\ accountIndex p = accountIndex a
  /\ rewardAccount p = rewardAccount a
  /\ stakeKeyDerivationPath p = stakeKeyDerivationPath a.
Proof.
  unfold progTokenAddress. intros H. apply bind_Ok_inv in H.
  destruct H as [s [Hs H]]. inversion H; subst p. simpl. rewrite Hs. repeat split.
Qed.

Lemma progTokenAddresses_nth (addrs progs : list GroupedAddress) :
  progTokenAddresses addrs = Ok progs ->
  exists lastIdx,
    lastIndex addrs = Ok lastIdx
    /\ List.length progs = List.length addrs
    /\ forall i a, nth_error addrs i = Some a ->
         exists p, nth_error progs i = Some p /\ progTokenAddress lastIdx a i = Ok p.
Proof.
  unfold progTokenAddresses. intros H. apply bind_Ok_inv in H.
  destruct H as [lastIdx [Hlast H]]. exists lastIdx. split; [exact Hlast |].
  unfold mapi in H. apply mapi_from_nth in H. exact H.
Qed.

Lemma progTokenAddresses_In (addrs progs : list GroupedAddress) (p : GroupedAddress) :
  progTokenAddresses addrs = Ok progs -> In p progs ->
  exists lastIdx i a,
    lastIndex addrs = Ok lastIdx /\ nth_error addrs i = Some a
    /\ nth_error progs i = Some p /\ progTokenAddress lastIdx a i = Ok p.
Proof.
  intros H Hp. destruct (progTokenAddresses_nth _ H) as [lastIdx [Hlast [Hlen Hnth]]].
  apply In_nth_error in Hp. destruct Hp as [i Hi].
  assert (Hlt : i < List.length addrs).
  { rewrite <- Hlen. apply nth_error_Some. congruence. }
  destruct (nth_error addrs i) as [a |] eqn:Ha;
    [| apply nth_error_None in Ha; lia].
  destruct (Hnth i a Ha) as [p' [Hp' Hf]].
  rewrite Hi in Hp'. inversion Hp'; subst p'.
  exists lastIdx, i, a. auto.
Qed.
End OrchestratorFacts.

(** ** The order of the discovered addresses *)

Lemma StronglySorted_all (R : GroupedAddress -> GroupedAddress -> Prop)
    (l : list GroupedAddress) :
  (forall x y, In x l -> In y l -> R x y) -> StronglySorted R l.
Proof.
  induction l as [| x t IH]; intros H; constructor.
  - apply IH. intros; apply H; right; assumption.
  - apply Forall_forall. intros y Hy. apply H; [left; reflexivity | right; exact Hy].
Qed.

Section FaithfulAccount.
Context {lib : Serialization}.
Variable this : HDSequentialDiscovery.
Variable manager : Bip32Account.
Hypothesis faithful : derivesFromPath manager.

Local Abbreviation provider := (this_chainHistoryProvider this).

Lemma firstExternalAddress_key :
  index (firstExternalAddress manager) = 0
  /\ stakeIndexOf (firstExternalAddress manager) = Some 0.
Proof.
  unfold firstExternalAddress, stakeIndexOf.
  destruct (faithful {| AccountAddressDerivationPath.index := 0;
                        AccountAddressDerivationPath.type := External |} 0)
    as [Hi [_ Hs]].
  rewrite Hi, Hs. split; reflexivity.
Qed.

Lemma firstAddresses_index (a : GroupedAddress) :
  In a (firstAddresses this manager) -> index a = 0.
Proof.
  destruct (firstAddresses_head this manager) as [rest [-> Hrest]].
  intros [<- | Ha].
  - apply firstExternalAddress_key.
  - rewrite (Hrest a Ha). unfold firstInternalAddress. apply faithful.
Qed.

Lemma stakeKeys_index (k : nat) (a : GroupedAddress) :
  In a (hitsBefore manager provider stakeKeyArgs k) -> index a = 0.
Proof.
  intros H. apply hitsBefore_In in H. destruct H as [i [t [_ [-> _]]]].
  unfold candidate. simpl. apply faithful.
Qed.

Lemma paymentKeys_index (k : nat) (a : GroupedAddress) :
  In a (hitsBefore manager provider paymentKeyArgs k) -> 1 <= index a <= k.
Proof.
  intros H. apply hitsBefore_In in H. destruct H as [i [t [Hi [-> _]]]].
  unfold candidate. simpl.
  destruct (faithful {| AccountAddressDerivationPath.index := i + 1;
                        AccountAddressDerivationPath.type := t |} 0) as [-> _].
  simpl. lia.
Qed.

Lemma paymentKeys_sorted (k : nat) :
  StronglySorted indexLe (hitsBefore manager provider paymentKeyArgs k).
Proof.
  induction k as [| k IH]; [constructor |].
  rewrite hitsBefore_S. apply StronglySorted_app; [exact IH | |].
  - apply StronglySorted_all. intros x y Hx Hy.
    apply hitsAt_In in Hx, Hy.
    destruct Hx as [tx [-> _]], Hy as [ty [-> _]].
    unfold indexLe, candidate. simpl.
    destruct (faithful {| AccountAddressDerivationPath.index := k + 1;
                          AccountAddressDerivationPath.type := tx |} 0) as [-> _].
    destruct (faithful {| AccountAddressDerivationPath.index := k + 1;
                          AccountAddressDerivationPath.type := ty |} 0) as [-> _].
    simpl. lia.
  - intros x y Hx Hy. apply paymentKeys_index in Hx.
    apply hitsAt_In in Hy. destruct Hy as [ty [-> _]].
    unfold indexLe, candidate. simpl.
    destruct (faithful {| AccountAddressDerivationPath.index := k + 1;
                          AccountAddressDerivationPath.type := ty |} 0) as [-> _].
    simpl. lia.
Qed.

(** The discovered addresses come in the order of their indices: those of
    index 0 first, then the payment-chain hits by increasing index. *)
Lemma discoveredAddresses_sorted (fuel : nat) (addrs : list GroupedAddress) :
  discoveredAddresses this manager fuel = Some addrs ->
  StronglySorted indexLe addrs.
Proof.
  intros H. apply discoveredAddresses_inv in H.
  destruct H as [stakeKeys [paymentKeys [Hstake [Hpay ->]]]].
  apply discoverAddresses_hits in Hstake, Hpay.
  destruct Hstake as [ks ->], Hpay as [kp ->].
  apply uniqByFrom_StronglySorted.
  apply StronglySorted_app; [| apply StronglySorted_app |].
  - apply StronglySorted_all. intros x y Hx Hy. unfold indexLe.
    rewrite (firstAddresses_index x Hx). lia.
  - apply StronglySorted_all. intros x y Hx Hy. unfold indexLe.
    rewrite (stakeKeys_index _ _ Hx). lia.
  - apply paymentKeys_sorted.
  - intros x y Hx _. unfold indexLe. rewrite (stakeKeys_index _ _ Hx). lia.
  - intros x y Hx _. unfold indexLe. rewrite (firstAddresses_index x Hx). lia.
Qed.

Lemma discoveredAddresses_lastIndex (fuel : nat) (addrs : list GroupedAddress) :
  discoveredAddresses this manager fuel = Some addrs ->
  lastIndex addrs = Ok (maxIndex addrs).
Proof.
  intros H. apply lastIndex_maxIndex.
  - exact (discoveredAddresses_sorted _ H).
  - destruct (discoveredAddresses_head _ _ _ H) as [rest ->]. discriminate.
Qed.
End FaithfulAccount.

Lemma fixture_account_derivesFromPath : derivesFromPath Fixture.account.
Proof. intros p stakeIndex. repeat split. Defined.

(** ** Programmable entries *)

(** C10: the programmable entry built from an address of the list keeps its
    type, network id, account index, reward account and stake key path; only
    [index] and [address] are written anew. *)
Theorem progTokenAddresses_frame {lib : Serialization}
    (addrs progs : list GroupedAddress) :
  progTokenAddresses addrs = Ok progs ->
  List.length progs = List.length addrs
  /\ forall i a,
       nth_error addrs i = Some a ->
       exists p,
         nth_error progs i = Some p
         /\ type p = type a
         /\ networkId p = networkId a
         /\ accountIndex p = accountIndex a
         /\ rewardAccount p = rewardAccount a
         /\ stakeKeyDerivationPath p = stakeKeyDerivationPath a.
Proof.
  intros H. destruct (progTokenAddresses_nth _ H) as [lastIdx [_ [Hlen Hnth]]].
  split; [exact Hlen |].
  intros i a Ha. destruct (Hnth i a Ha) as [p [Hp Hf]].
  apply progTokenAddress_fields in Hf. exists p. tauto.
Qed.

Lemma progTokenAddresses_frame_witness :
  exists addrs progs,
    discoveredAddresses
      {| this_chainHistoryProvider := Fixture.gapChain; this_lookAheadCount := 3 |}
      Fixture.account 12 = Some addrs
    /\ @progTokenAddresses Fixture.serialization addrs = Ok progs
    /\ List.length progs = List.length addrs
    /\ forall i a,
         nth_error addrs i = Some a ->
         exists p,
           nth_error progs i = Some p
           /\ type p = type a
           /\ networkId p = networkId a
           /\ accountIndex p = accountIndex a
           /\ rewardAccount p = rewardAccount a
           /\ stakeKeyDerivationPath p = stakeKeyDerivationPath a.
Proof.
  eexists. eexists.
  split; [vm_compute; reflexivity |].
  split; [vm_compute; reflexivity |].
  apply (@progTokenAddresses_frame Fixture.serialization).
  vm_compute. reflexivity.
Defined.

(** C2: in every run of [discover] that returns, each address of the
    deduplicated list has one programmable entry, at the same position of the
    programmable list, whose index is the greatest index of the deduplicated
    list plus its 1-based position; so every programmable index is above
    every index of the deduplicated list, and the programmable entries are in
    the order of the list they come from. *)
Theorem progTokenAddresses_index_range {lib : Serialization}
    (this : HDSequentialDiscovery) (manager : Bip32Account)
    (fuel : nat) (result : list GroupedAddress) :
  derivesFromPath manager ->
  discover this manager fuel = Some (Ok result) ->
  exists addrs progs,
    discoveredAddresses this manager fuel = Some addrs
    /\ progTokenAddresses addrs = Ok progs
    /\ Permutation (addrs ++ progs) result
    /\ List.length progs = List.length addrs
    /\ (forall i a,
          nth_error addrs i = Some a ->
          exists p,
            nth_error progs i = Some p
            /\ index p = maxIndex addrs + (i + 1)
            /\ makeProgrammableTokenAddress (address a) (networkId a) = Ok (address p))
    /\ (forall a p, In a addrs -> In p progs -> index a < index p)
    /\ (forall i j p q,
          i < j -> nth_error progs i = Some p -> nth_error progs j = Some q ->
          index p < index q).
Proof.
  intros Hfaithful Hrun.
  destruct (discover_inv _ _ _ Hrun) as [addrs [progs [Haddrs [Hprogs Hsort]]]].
  exists addrs, progs.
  pose proof (@discoveredAddresses_lastIndex this manager Hfaithful fuel addrs Haddrs)
    as Hlast.
  destruct (progTokenAddresses_nth _ Hprogs) as [lastIdx [Hlast' [Hlen Hnth]]].
  rewrite Hlast in Hlast'. injection Hlast' as <-.
  assert (Hidx : forall i p, nth_error progs i = Some p ->
                   index p = maxIndex addrs + (i + 1)).
  { intros i p Hp.
    assert (Hlt : i < List.length addrs).
    { rewrite <- Hlen. apply nth_error_Some. congruence. }
    destruct (nth_error addrs i) as [a |] eqn:Ha;
      [| apply nth_error_None in Ha; lia].
    destruct (Hnth i a Ha) as [p' [Hp' Hf]].
    rewrite Hp in Hp'. injection Hp' as <-.
    apply progTokenAddress_fields in Hf. lia. }
  split; [exact Haddrs |]. split; [exact Hprogs |].
  split; [exact (sort_Permutation _ Hsort) |]. split; [exact Hlen |].
  split; [| split].
  - intros i a Ha. destruct (Hnth i a Ha) as [p [Hp Hf]]. exists p.
    split; [exact Hp |]. split; [exact (Hidx i p Hp) |].
    apply progTokenAddress_fields in Hf. apply Hf.
  - intros a p Ha Hp. apply In_nth_error in Hp. destruct Hp as [i Hi].
    rewrite (Hidx i p Hi). pose proof (maxIndex_In _ _ Ha). lia.
  - intros i j p q Hij Hp Hq. rewrite (Hidx i p Hp), (Hidx j q Hq). lia.
Qed.

Lemma progTokenAddresses_index_range_witness :
  exists result,
    @discover Fixture.serialization
      {| this_chainHistoryProvider := Fixture.gapChain; this_lookAheadCount := 3 |}
      Fixture.account 12 = Some (Ok result)
    /\ exists addrs progs,
        discoveredAddresses
          {| this_chainHistoryProvider := Fixture.gapChain; this_lookAheadCount := 3 |}
          Fixture.account 12 = Some addrs
        /\ @progTokenAddresses Fixture.serialization addrs = Ok progs
        /\ Permutation (addrs ++ progs) result
        /\ List.length progs = List.length addrs
        /\ (forall i a,
              nth_error addrs i = Some a ->
              exists p,
                nth_error progs i = Some p
                /\ index p = maxIndex addrs + (i + 1)
                /\ @makeProgrammableTokenAddress Fixture.serialization
                     (address a) (networkId a) = Ok (address p))
        /\ (forall a p, In a addrs -> In p progs -> index a < index p)
        /\ (forall i j p q,
              i < j -> nth_error progs i = Some p -> nth_error progs j = Some q ->
              index p < index q).
Proof.
  eexists. split; [vm_compute; reflexivity |].
  apply (@progTokenAddresses_index_range Fixture.serialization).
  - exact fixture_account_derivesFromPath.
  - vm_compute. reflexivity.
Defined.

(** ** The returned list *)

(** C5: in every run of [discover] that returns, whatever the account,
    the list is in ascending order of the pair (index, stake key index) and
    the address derived at payment index 0, external role, stake index 0 is
    in it, whether it has history or not; that address is the first element
    as soon as its own index and stake key index are 0, which is what the
    derivation at (0, external, 0) gives. *)
Theorem discover_sorted_first_external {lib : Serialization}
    (this : HDSequentialDiscovery) (manager : Bip32Account)
    (fuel : nat) (result : list GroupedAddress) :
  discover this manager fuel = Some (Ok result) ->
  let first :=
    deriveAddress manager
      {| AccountAddressDerivationPath.index := 0;
         AccountAddressDerivationPath.type := External |} 0 in
  StronglySorted keyLe result
  /\ In first result
  /\ (index first = 0 -> stakeIndexOf first = Some 0 ->
      exists tail, result = first :: tail).
Proof.
  intros Hrun first.
  destruct (discover_inv _ _ _ Hrun) as [addrs [progs [Haddrs [_ Hsort]]]].
  destruct (discoveredAddresses_head _ _ _ Haddrs) as [rest ->].
  split; [exact (sort_StronglySorted _ Hsort) |]. split.
  - apply (Permutation_in first (sort_Permutation _ Hsort)). left. reflexivity.
  - intros Hi Hs. rewrite <- app_comm_cons in Hsort.
    destruct (@sort_head _ (rest ++ progs) result Hi Hs Hsort) as [tail [-> _]].
    exists tail. reflexivity.
Qed.

Lemma discover_sorted_first_external_witness :
  exists result,
    @discover Fixture.serialization
      {| this_chainHistoryProvider := Fixture.gapChain; this_lookAheadCount := 3 |}
      DiscoveryFixture.backwardAccount 12 = Some (Ok result)
    /\ map index result = [0; 15; 16; 17; 18; 18; 19; 19]
    /\ StronglySorted keyLe result
    /\ In (deriveAddress DiscoveryFixture.backwardAccount
             {| AccountAddressDerivationPath.index := 0;
                AccountAddressDerivationPath.type := External |} 0) result
    /\ (index (deriveAddress DiscoveryFixture.backwardAccount
                 {| AccountAddressDerivationPath.index := 0;
                    AccountAddressDerivationPath.type := External |} 0) = 0 ->
        stakeIndexOf (deriveAddress DiscoveryFixture.backwardAccount
                        {| AccountAddressDerivationPath.index := 0;
                           AccountAddressDerivationPath.type := External |} 0)
        = Some 0 ->
        exists tail,
          result = deriveAddress DiscoveryFixture.backwardAccount
                     {| AccountAddressDerivationPath.index := 0;
                        AccountAddressDerivationPath.type := External |} 0 :: tail).
Proof.
  eexists. split; [vm_compute; reflexivity |].
  split; [vm_compute; reflexivity |].
  apply (@discover_sorted_first_external Fixture.serialization
           {| this_chainHistoryProvider := Fixture.gapChain; this_lookAheadCount := 3 |}
           DiscoveryFixture.backwardAccount 12).
  vm_compute. reflexivity.
Defined.

(** On that run the sort moves entries: the deduplicated list followed by
    the programmable entries has the indices 0, 19, 18, 15, 16, 17, 18, 19. *)
Example discover_backward_unsorted_input :
  option_map (map index)
    (discoveredAddresses
       {| this_chainHistoryProvider := Fixture.gapChain; this_lookAheadCount := 3 |}
       DiscoveryFixture.backwardAccount 12)
  = Some [0; 19; 18; 15].
Proof. vm_compute. reflexivity. Qed.

(** When the stake-chain pass finds the external address of payment index 0
    at stake index 1, that address and the first one have the same payment
    credential, hence the same programmable address: the returned list has
    two entries with one encoded address. *)
Lemma discover_programmable_duplicates :
  exists result,
    @discover Fixture.serialization
      {| this_chainHistoryProvider := Fixture.secondStakeKeyChain;
         this_lookAheadCount := 0 |}
      Fixture.account 8 = Some (Ok result)
    /\ ~ NoDup (map address result).
Proof.
  eexists. split; [vm_compute; reflexivity |].
  intros H. simpl in H.
  inversion H as [| ? ? _ H1]; subst.
  inversion H1 as [| ? ? _ H2]; subst.
  inversion H2 as [| ? ? Hnot _]; subst.
  apply Hnot. left. reflexivity.
Qed.

(** C4 (amended): in every run of [discover] that returns, the
    concatenation of the first addresses, the stake-chain hits and the
    payment-chain hits is deduplicated by encoded address, the first entry of
    each address being kept, so the deduplicated entries of the returned list
    have pairwise distinct encoded addresses.  The programmable entries are
    appended without deduplication, and two of them carry the same encoded
    address as soon as the addresses they come from have the same payment
    credential and network id. *)
Theorem discover_dedup_by_address {lib : Serialization}
    (this : HDSequentialDiscovery) (manager : Bip32Account)
    (fuel : nat) (result : list GroupedAddress) :
  discover this manager fuel = Some (Ok result) ->
  exists stakeKeys paymentKeys addrs progs,
    stakeKeyAddresses this manager fuel = Some stakeKeys
    /\ paymentKeyAddresses this manager fuel = Some paymentKeys
    /\ addrs = uniqBy (firstAddresses this manager ++ stakeKeys ++ paymentKeys)
    /\ NoDup (map address addrs)
    /\ (forall s,
          In s (map address (firstAddresses this manager ++ stakeKeys ++ paymentKeys))
          <-> In s (map address addrs))
    /\ (forall a,
          In a addrs ->
          exists l1 l2,
            firstAddresses this manager ++ stakeKeys ++ paymentKeys = l1 ++ a :: l2
            /\ ~ In (address a) (map address l1))
    /\ progTokenAddresses addrs = Ok progs
    /\ List.length progs = List.length addrs
    /\ Permutation (addrs ++ progs) result
    /\ (forall i j a b p q pa pb,
          nth_error addrs i = Some a -> nth_error progs i = Some p ->
          nth_error addrs j = Some b -> nth_error progs j = Some q ->
          fromString (address a) = Some pa -> fromString (address b) = Some pb ->
          Cardano.paymentCredentialOf pa = Cardano.paymentCredentialOf pb ->
          networkId a = networkId b ->
          address p = address q).
Proof.
  intros Hrun.
  destruct (discover_inv _ _ _ Hrun) as [addrs [progs [Haddrs [Hprogs Hsort]]]].
  destruct (discoveredAddresses_inv _ _ _ Haddrs)
    as [stakeKeys [paymentKeys [Hstake [Hpay Heq]]]].
  exists stakeKeys, paymentKeys, addrs, progs.
  destruct (progTokenAddresses_nth _ Hprogs) as [lastIdx [_ [Hlen Hnth]]].
  split; [exact Hstake |]. split; [exact Hpay |]. split; [exact Heq |].
  split; [rewrite Heq; apply uniqByFrom_NoDup |].
  split; [| split; [| split; [exact Hprogs | split; [exact Hlen | split]]]].
  - intros s. rewrite Heq. split.
    + intros Hs. destruct (uniqByFrom_keys [] _ _ Hs) as [[] | Hin]. exact Hin.
    + intros Hs. apply in_map_iff in Hs. destruct Hs as [a [<- Ha]].
      apply in_map. apply (uniqByFrom_In _ _ _ Ha).
  - intros a Ha. rewrite Heq in Ha. exact (uniqByFrom_first _ _ _ Ha).
  - exact (sort_Permutation _ Hsort).
  - intros i j a b p q pa pb Ha Hp Hb Hq Hpa Hpb Hcred Hnet.
    destruct (Hnth i a Ha) as [p' [Hp' Hfp]]. rewrite Hp in Hp'. injection Hp' as <-.
    destruct (Hnth j b Hb) as [q' [Hq' Hfq]]. rewrite Hq in Hq'. injection Hq' as <-.
    apply progTokenAddress_fields in Hfp, Hfq.
    destruct Hfp as [Hfp _], Hfq as [Hfq _].
    apply makeProgrammableTokenAddress_Ok in Hfp, Hfq.
    destruct Hfp as [pa' [ca [Hpa' [_ [Hca ->]]]]].
    destruct Hfq as [pb' [cb [Hpb' [_ [Hcb ->]]]]].
    rewrite Hpa in Hpa'. injection Hpa' as <-.
    rewrite Hpb in Hpb'. injection Hpb' as <-.
    rewrite Hcred, Hcb in Hca. injection Hca as <-.
    rewrite Hnet. reflexivity.
Qed.

Lemma discover_dedup_by_address_witness :
  exists result,
    @discover Fixture.serialization
      {| this_chainHistoryProvider := Fixture.secondStakeKeyChain;
         this_lookAheadCount := 0 |}
      Fixture.account 8 = Some (Ok result)
    /\ exists stakeKeys paymentKeys addrs progs,
        stakeKeyAddresses
          {| this_chainHistoryProvider := Fixture.secondStakeKeyChain;
             this_lookAheadCount := 0 |} Fixture.account 8 = Some stakeKeys
        /\ paymentKeyAddresses
             {| this_chainHistoryProvider := Fixture.secondStakeKeyChain;
                this_lookAheadCount := 0 |} Fixture.account 8 = Some paymentKeys
        /\ addrs
           = uniqBy (firstAddresses
                       {| this_chainHistoryProvider := Fixture.secondStakeKeyChain;
                          this_lookAheadCount := 0 |} Fixture.account
                     ++ stakeKeys ++ paymentKeys)
        /\ NoDup (map address addrs)
        /\ (forall s,
              In s (map address
                      (firstAddresses
                         {| this_chainHistoryProvider := Fixture.secondStakeKeyChain;
                            this_lookAheadCount := 0 |} Fixture.account
                       ++ stakeKeys ++ paymentKeys))
              <-> In s (map address addrs))
        /\ (forall a,
              In a addrs ->
              exists l1 l2,
                firstAddresses
                  {| this_chainHistoryProvider := Fixture.secondStakeKeyChain;
                     this_lookAheadCount := 0 |} Fixture.account
                ++ stakeKeys ++ paymentKeys = l1 ++ a :: l2
                /\ ~ In (address a) (map address l1))
        /\ @progTokenAddresses Fixture.serialization addrs = Ok progs
        /\ List.length progs = List.length addrs
        /\ Permutation (addrs ++ progs) result
        /\ (forall i j a b p q pa pb,
              nth_error addrs i = Some a -> nth_error progs i = Some p ->
              nth_error addrs j = Some b -> nth_error progs j = Some q ->
              @fromString Fixture.serialization (address a) = Some pa ->
              @fromString Fixture.serialization (address b) = Some pb ->
              Cardano.paymentCredentialOf pa = Cardano.paymentCredentialOf pb ->
              networkId a = networkId b ->
              address p = address q).
Proof.
  eexists. split; [vm_compute; reflexivity |].
  apply (@discover_dedup_by_address Fixture.serialization
           {| this_chainHistoryProvider := Fixture.secondStakeKeyChain;
              this_lookAheadCount := 0 |} Fixture.account 8).
  vm_compute. reflexivity.
Defined.

(** ** A chain without history *)

Lemma discoverAddresses_nothing (account : Bip32Account) (provider : ChainHistoryProvider)
    (lookAhead : nat) (args : nat -> AddressType -> DeriveAddressArgs) (fuel : nat) :
  (forall i, i <= lookAhead -> usedAt account provider args i = false) ->
  lookAhead + 1 < fuel ->
  discoverAddresses account provider lookAhead args fuel = Some [].
Proof.
  intros Hunused Hfuel.
  assert (Hfirst : firstQuietRun account provider lookAhead args 0).
  { split.
    - apply quietRun_spec. intros i Hi. apply Hunused. lia.
    - intros m Hm. lia. }
  unfold discoverAddresses.
  rewrite (scanLoop_reaches Hfirst) by (simpl; lia).
  rewrite stateAfter_eq. simpl found. simpl option_map. f_equal.
  apply (@hitsBefore_quiet account provider args 0 (S lookAhead)).
  intros i Hi. apply Hunused. lia.
Qed.

Lemma insertSorted_front (x y : GroupedAddress) (ys : list GroupedAddress) (c : Z) :
  compareFn x y = Ok c -> (c <= 0)%Z -> insertSorted x (y :: ys) = Ok (x :: y :: ys).
Proof.
  intros Hc Hle. simpl. rewrite Hc. simpl.
  destruct (Z.leb_spec c 0); [reflexivity | lia].
Qed.

Lemma compareFn_index_lt (x y : GroupedAddress) :
  index x < index y ->
  compareFn x y = Ok (Z.of_nat (index x) - Z.of_nat (index y))%Z.
Proof.
  intros H. unfold compareFn.
  destruct (Z.eqb_spec (Z.of_nat (index x) - Z.of_nat (index y)) 0); [lia | reflexivity].
Qed.

Lemma insertSorted_index_lt (x y : GroupedAddress) (ys : list GroupedAddress) :
  index x < index y -> insertSorted x (y :: ys) = Ok (x :: y :: ys).
Proof.
  intros H.
  apply (@insertSorted_front x y ys _ (@compareFn_index_lt x y H)). lia.
Qed.

Lemma insertSorted_same_key (x y : GroupedAddress) (ys : list GroupedAddress) (s : nat) :
  index x = index y -> stakeIndexOf x = Some s -> stakeIndexOf y = Some s ->
  insertSorted x (y :: ys) = Ok (x :: y :: ys).
Proof.
  intros Hi Hx Hy. apply (@insertSorted_front x y ys 0%Z); [| lia].
  unfold compareFn, stakeIndexOf in *. rewrite Hi, Z.sub_diag. simpl.
  destruct (stakeKeyDerivationPath x) as [sa |]; [| discriminate Hx].
  destruct (stakeKeyDerivationPath y) as [sb |]; [| discriminate Hy].
  simpl in Hx, Hy. injection Hx as ->. injection Hy as ->.
  rewrite Z.sub_diag. reflexivity.
Qed.

Lemma sort_cons (x : GroupedAddress) (l s : list GroupedAddress) :
  sort l = Ok s -> sort (x :: l) = insertSorted x s.
Proof. intros H. simpl. rewrite H. reflexivity. Qed.

Section WithProgrammable.
Context {lib : Serialization}.

Lemma withProgrammable_one (a : GroupedAddress) :
  index a = 0 ->
  withProgrammable [a] = (p0 <- progTokenAddress 0 a 0 ;; Ok [a; p0]).
Proof.
  intros Hi. unfold withProgrammable, progTokenAddresses, mapi.
  change (lastIndex [a]) with (Ok (index a)). rewrite Hi.
  cbn [bind mapi_from].
  destruct (progTokenAddress 0 a 0) as [p0 | e] eqn:Hp0; cbn [bind]; [| reflexivity].
  apply progTokenAddress_fields in Hp0. destruct Hp0 as [_ [Hp0 _]].
  cbn [app]. rewrite (@sort_cons a [p0] [p0]) by reflexivity.
  apply insertSorted_index_lt. lia.
Qed.

Lemma withProgrammable_two (a b : GroupedAddress) (s : nat) :
  index a = 0 -> index b = 0 ->
  stakeIndexOf a = Some s -> stakeIndexOf b = Some s ->
  withProgrammable [a; b]
  = (p0 <- progTokenAddress 0 a 0 ;;
     p1 <- progTokenAddress 0 b 1 ;;
     Ok [a; b; p0; p1]).
Proof.
  intros Ha Hb Hsa Hsb. unfold withProgrammable, progTokenAddresses, mapi.
  change (lastIndex [a; b]) with (Ok (index b)). rewrite Hb.
  cbn [bind mapi_from].
  destruct (progTokenAddress 0 a 0) as [p0 | e] eqn:Hp0; cbn [bind]; [| reflexivity].
  destruct (progTokenAddress 0 b 1) as [p1 | e] eqn:Hp1; cbn [bind]; [| reflexivity].
  apply progTokenAddress_fields in Hp0, Hp1.
  destruct Hp0 as [_ [Hp0 _]], Hp1 as [_ [Hp1 _]].
  cbn [app].
  assert (H1 : sort [p0; p1] = Ok [p0; p1]).
  { rewrite (@sort_cons p0 [p1] [p1]) by reflexivity.
    apply insertSorted_index_lt. lia. }
  assert (H2 : sort [b; p0; p1] = Ok [b; p0; p1]).
  { rewrite (@sort_cons b [p0; p1] [p0; p1] H1).
    apply insertSorted_index_lt. lia. }
  rewrite (@sort_cons a [b; p0; p1] [b; p0; p1] H2).
  apply (@insertSorted_same_key a b [p0; p1] s); congruence.
Qed.
End WithProgrammable.


Lemma emptyChain_unused (a : GroupedAddress) : addressHasTx a Fixture.emptyChain = false.
Proof. reflexivity. Defined.


(** The same run on a chain where the internal sibling has history returns
    four entries. *)
Example discover_with_used_sibling :
  option_map (fun r => match r with
                       | Ok l => map (fun a => (type a, index a)) l
                       | Throw _ => []
                       end)
    (@discover Fixture.serialization
       {| this_chainHistoryProvider := Fixture.changeChain; this_lookAheadCount := 0 |}
       Fixture.account 7)
  = Some [(External, 0); (Internal, 0); (External, 1); (Internal, 2)].
Proof. vm_compute. reflexivity. Qed.

(** ** [discover] returns

    The properties above are about the list a run returns.  A run does
    return, with enough fuel, as soon as both chains have a quiet run and the
    account derives addresses of a supported kind. *)

Lemma discoverAddresses_returns (account : Bip32Account) (provider : ChainHistoryProvider)
    (lookAhead : nat) (args : nat -> AddressType -> DeriveAddressArgs) (n fuel : nat) :
  firstQuietRun account provider lookAhead args n ->
  n + S lookAhead < fuel ->
  discoverAddresses account provider lookAhead args fuel
  = Some (hitsBefore account provider args n).
Proof.
  intros Hfirst Hfuel. unfold discoverAddresses.
  rewrite (scanLoop_reaches Hfirst Hfuel), stateAfter_eq. simpl. f_equal.
  apply hitsBefore_quiet. apply quietRun_spec. apply Hfirst.
Qed.

Lemma discover_returns {lib : Serialization}
    (this : HDSequentialDiscovery) (manager : Bip32Account) (ns np fuel : nat) :
  derivesFromPath manager ->
  (forall p s,
      exists parsed,
        fromString (address (deriveAddress manager p s)) = Some parsed
        /\ Cardano.supported (Cardano.getType parsed) = true) ->
  firstQuietRun manager (this_chainHistoryProvider this)
    STAKE_KEY_INDEX_LOOKAHEAD stakeKeyArgs ns ->
  firstQuietRun manager (this_chainHistoryProvider this)
    (this_lookAheadCount this) paymentKeyArgs np ->
  ns + S STAKE_KEY_INDEX_LOOKAHEAD < fuel ->
  np + S (this_lookAheadCount this) < fuel ->
  exists result, discover this manager fuel = Some (Ok result).
Proof.
  intros Hfaithful Hparse Hns Hnp Hfs Hfp.
  unfold discover, discoveredAddresses, stakeKeyAddresses, paymentKeyAddresses.
  rewrite (discoverAddresses_returns Hns Hfs), (discoverAddresses_returns Hnp Hfp).
  cbn [option_map].
  set (all := firstAddresses this manager
              ++ hitsBefore manager (this_chainHistoryProvider this) stakeKeyArgs ns
              ++ hitsBefore manager (this_chainHistoryProvider this) paymentKeyArgs np).
  assert (Hderived : forall a, In a (uniqBy all) ->
                       exists p s, a = deriveAddress manager p s).
  { intros a Ha. apply uniqByFrom_In in Ha. destruct Ha as [Ha _].
    unfold all in Ha. apply in_app_or in Ha. destruct Ha as [Ha | Ha].
    - destruct (firstAddresses_head this manager) as [rest [Hrest Hint]].
      rewrite Hrest in Ha. destruct Ha as [<- | Ha].
      + eexists. eexists. reflexivity.
      + rewrite (Hint a Ha). eexists. eexists. reflexivity.
    - apply in_app_or in Ha.
      destruct Ha as [Ha | Ha]; apply hitsBefore_In in Ha;
        destruct Ha as [i [t [_ [-> _]]]]; eexists; eexists; reflexivity. }
  assert (Hprogs : exists progs, progTokenAddresses (uniqBy all) = Ok progs).
  { unfold progTokenAddresses.
    assert (Hlast : exists lastIdx, lastIndex (uniqBy all) = Ok lastIdx).
    { unfold all. destruct (firstAddresses_head this manager) as [rest [-> _]].
      cbn [app]. rewrite uniqBy_head. unfold lastIndex.
      destruct (rev (firstExternalAddress manager :: _)) as [| z zs] eqn:Hrev.
      - apply (f_equal (@List.length _)) in Hrev. rewrite length_rev in Hrev.
        discriminate Hrev.
      - eexists. reflexivity. }
    destruct Hlast as [lastIdx ->]. cbn [bind]. unfold mapi.
    apply mapi_from_total. intros a i Ha.
    destruct (Hderived a Ha) as [p [s ->]].
    destruct (Hparse p s) as [parsed [Hp Hs]].
    destruct (getPaymentCredential_supported parsed Hs) as [c [_ Hc]].
    unfold progTokenAddress, makeProgrammableTokenAddress.
    rewrite Hp, Hc. cbn [bind]. eexists. reflexivity. }
  destruct Hprogs as [progs Hprogs].
  unfold withProgrammable. rewrite Hprogs. cbn [bind].
  destruct (sort_total (l := uniqBy all ++ progs)) as [result Hresult].
  - apply Forall_app. split; apply Forall_forall; intros a Ha.
    + destruct (Hderived a Ha) as [p [s ->]].
      destruct (Hfaithful p s) as [_ [_ Hs]]. rewrite Hs. discriminate.
    + destruct (@progTokenAddresses_In lib (uniqBy all) progs a Hprogs Ha)
        as [lastIdx [i [b [_ [Hb [_ Hf]]]]]].
      apply progTokenAddress_fields in Hf.
      destruct Hf as [_ [_ [_ [_ [_ [_ ->]]]]]].
      apply nth_error_In in Hb. destruct (Hderived b Hb) as [p [s ->]].
      destruct (Hfaithful p s) as [_ [_ Hs]]. rewrite Hs. discriminate.
  - exists result. rewrite Hresult. reflexivity.
Qed.

(** * Further properties of the discovery *)

(** ** When a scan returns *)

Lemma quietRun_least (account : Bip32Account) (provider : ChainHistoryProvider)
    (lookAhead : nat) (args : nat -> AddressType -> DeriveAddressArgs) (n : nat) :
  (exists m, m <= n /\ firstQuietRun account provider lookAhead args m)
  \/ (forall m, m <= n -> quietRun account provider lookAhead args m = false).
Proof.
  induction n as [| n IH].
  - destruct (quietRun account provider lookAhead args 0) eqn:Hq.
    + left. exists 0. split; [lia |]. split; [exact Hq | intros m Hm; lia].
    + right. intros m Hm. replace m with 0 by lia. exact Hq.
  - destruct IH as [[m [Hm Hfirst]] | Hnone].
    + left. exists m. split; [lia | exact Hfirst].
    + destruct (quietRun account provider lookAhead args (S n)) eqn:Hq.
      * left. exists (S n). split; [lia |]. split; [exact Hq |].
        intros m Hm. apply Hnone. lia.
      * right. intros m Hm. destruct (Nat.eq_dec m (S n)) as [-> | Hne];
          [exact Hq | apply Hnone; lia].
Qed.

(** X1: a scan returns, given enough fuel, exactly when some
    [lookAheadCount + 1] consecutive positions are unused; when every
    position has a used address the loop runs for ever. *)
Theorem discoverAddresses_returns_iff (account : Bip32Account)
    (provider : ChainHistoryProvider) (lookAhead : nat)
    (args : nat -> AddressType -> DeriveAddressArgs) :
  ((exists fuel l, discoverAddresses account provider lookAhead args fuel = Some l)
   <-> exists n, quietRun account provider lookAhead args n = true)
  /\ ((forall i, usedAt account provider args i = true) ->
      forall fuel, discoverAddresses account provider lookAhead args fuel = None).
Proof.
  assert (Honly : forall fuel l,
             discoverAddresses account provider lookAhead args fuel = Some l ->
             exists n, quietRun account provider lookAhead args n = true).
  { intros fuel l H. unfold discoverAddresses in H.
    destruct (scanLoop account provider lookAhead args fuel scanStart) as [st |] eqn:Hloop;
      [| discriminate H].
    apply scanLoop_stops in Hloop. destruct Hloop as [n [[Hq _] _]].
    exists n. exact Hq. }
  split; [split |].
  - intros [fuel [l H]]. exact (Honly fuel l H).
  - intros [n Hq].
    destruct (quietRun_least account provider lookAhead args n) as [[m [_ Hfirst]] | Hnone].
    + exists (S (m + S lookAhead)), (hitsBefore account provider args m).
      apply discoverAddresses_returns; [exact Hfirst | lia].
    + rewrite Hnone in Hq by lia. discriminate Hq.
  - intros Hbusy fuel.
    destruct (discoverAddresses account provider lookAhead args fuel) as [l |] eqn:H;
      [| reflexivity].
    destruct (Honly fuel l H) as [n Hq].
    pose proof (proj1 (quietRun_spec account provider lookAhead args n) Hq n) as Hn.
    rewrite Hbusy in Hn. assert (true = false) by (apply Hn; lia). discriminate.
Qed.

Lemma discoverAddresses_returns_iff_witness :
  discoverAddresses Fixture.account DiscoveryFixture.busyChain 3 paymentKeyArgs 50 = None.
Proof.
  apply (proj2 (discoverAddresses_returns_iff
                  Fixture.account DiscoveryFixture.busyChain 3 paymentKeyArgs)).
  intros i. reflexivity.
Defined.

Lemma probesBefore_length (account : Bip32Account)
    (args : nat -> AddressType -> DeriveAddressArgs) (k : nat) :
  List.length (probesBefore account args k) = 2 * k.
Proof.
  induction k as [| k IH]; [reflexivity |].
  rewrite probesBefore_S, length_app, IH. simpl. lia.
Qed.

(** X2: a scan that returns has asked the oracle about exactly two
    addresses per position, for the positions up to the end of the first
    quiet run: [2 * (n + lookAheadCount + 1)] queries, at least
    [2 * (lookAheadCount + 1)], and it has found at most as many addresses as
    it probed before that run. *)
Theorem discoverAddresses_query_count (account : Bip32Account)
    (provider : ChainHistoryProvider) (lookAhead : nat)
    (args : nat -> AddressType -> DeriveAddressArgs)
    (fuel : nat) (st : ScanState) :
  scanLoop account provider lookAhead args fuel scanStart = Some st ->
  exists n,
    firstQuietRun account provider lookAhead args n
    /\ List.length (probed st) = 2 * (n + lookAhead + 1)
    /\ List.length (found st) <= 2 * n
    /\ probed st = probesBefore account args (n + lookAhead + 1).
Proof.
  intros Hrun. apply scanLoop_stops in Hrun. destruct Hrun as [n [Hfirst [_ ->]]].
  exists n. split; [exact Hfirst |].
  rewrite stateAfter_eq. simpl probed. simpl found.
  replace (n + S lookAhead) with (n + lookAhead + 1) by lia.
  split; [apply probesBefore_length |]. split; [| reflexivity].
  replace (n + lookAhead + 1) with (n + S lookAhead) by lia.
  rewrite (@hitsBefore_quiet account provider args n (S lookAhead))
    by (apply quietRun_spec; apply Hfirst).
  rewrite hitsBefore_filter, <- (probesBefore_length account args n).
  apply filter_length_le.
Qed.

Lemma discoverAddresses_query_count_witness :
  exists n,
    firstQuietRun Fixture.account Fixture.gapChain 3 paymentKeyArgs n
    /\ List.length
         (probesBefore Fixture.account paymentKeyArgs 9) = 2 * (n + 3 + 1)
    /\ List.length (hitsBefore Fixture.account Fixture.gapChain paymentKeyArgs 5) <= 2 * n
    /\ probesBefore Fixture.account paymentKeyArgs 9
       = probesBefore Fixture.account paymentKeyArgs (n + 3 + 1).
Proof.
  apply (@discoverAddresses_query_count Fixture.account Fixture.gapChain 3 paymentKeyArgs 10
           {| currentGap := 4; currentIndex := 9;
              found := hitsBefore Fixture.account Fixture.gapChain paymentKeyArgs 5;
              probed := probesBefore Fixture.account paymentKeyArgs 9 |}).
  vm_compute. reflexivity.
Defined.

(** ** Where the discovered addresses come from *)

(** X3: every address of the deduplicated list is the first external
    address, or an address with history that was derived along one of the two
    axes: at stake index 0, or at payment index 0 with a stake index of at
    least 1.  An address with both indices above 0 is never discovered. *)
Theorem discoveredAddresses_provenance
    (this : HDSequentialDiscovery) (manager : Bip32Account)
    (fuel : nat) (addrs : list GroupedAddress) :
  discoveredAddresses this manager fuel = Some addrs ->
  forall a,
    In a addrs ->
    a = paymentAddress manager External 0
    \/ (addressHasTx a (this_chainHistoryProvider this) = true
        /\ exists t k,
             a = paymentAddress manager t k
             \/ (1 <= k /\ a = stakeAddress manager t k)).
Proof.
  intros H a Ha. apply discoveredAddresses_inv in H.
  destruct H as [stakeKeys [paymentKeys [Hstake [Hpay ->]]]].
  apply uniqByFrom_In in Ha. destruct Ha as [Ha _].
  apply in_app_or in Ha. destruct Ha as [Ha | Ha].
  - unfold firstAddresses in Ha.
    destruct (addressHasTx (firstInternalAddress manager) (this_chainHistoryProvider this))
      eqn:Hused.
    + destruct Ha as [<- | [<- | []]]; [left; reflexivity | right].
      split; [exact Hused |]. exists Internal, 0. left. reflexivity.
    + destruct Ha as [<- | []]. left. reflexivity.
  - right. apply in_app_or in Ha. destruct Ha as [Ha | Ha].
    + apply discoverAddresses_hits in Hstake. destruct Hstake as [k ->].
      apply hitsBefore_In in Ha. destruct Ha as [i [t [_ [-> Hused]]]].
      split; [exact Hused |]. exists t, (i + 1). right. split; [lia | reflexivity].
    + apply discoverAddresses_hits in Hpay. destruct Hpay as [k ->].
      apply hitsBefore_In in Ha. destruct Ha as [i [t [_ [-> Hused]]]].
      split; [exact Hused |]. exists t, (i + 1). left. reflexivity.
Qed.

Lemma discoveredAddresses_provenance_witness :
  paymentAddress Fixture.account External 2 = paymentAddress Fixture.account External 0
  \/ (addressHasTx (paymentAddress Fixture.account External 2) Fixture.gapChain = true
      /\ exists t k,
           paymentAddress Fixture.account External 2 = paymentAddress Fixture.account t k
           \/ (1 <= k
               /\ paymentAddress Fixture.account External 2
                  = stakeAddress Fixture.account t k)).
Proof.
  apply (@discoveredAddresses_provenance
           {| this_chainHistoryProvider := Fixture.gapChain; this_lookAheadCount := 3 |}
           Fixture.account 12
           [paymentAddress Fixture.account External 0;
            paymentAddress Fixture.account External 1;
            paymentAddress Fixture.account External 2;
            paymentAddress Fixture.account External 5]).
  - vm_compute. reflexivity.
  - simpl. auto.
Defined.


Lemma seventhStakeKeyChain_unused :
  forall s, 1 <= s <= 6 ->
    stakeIndexUsed Fixture.account DiscoveryFixture.seventhStakeKeyChain s = false.
Proof.
  intros s Hs. do 7 (destruct s as [| s]; [try lia; vm_compute; reflexivity |]). lia.
Defined.


(** ** The shape of the returned list *)

Lemma insertSorted_app_low (x : GroupedAddress) (s l2 : list GroupedAddress) :
  (forall y, In y l2 -> index x < index y) ->
  insertSorted x (s ++ l2) = (r <- insertSorted x s ;; Ok (r ++ l2)).
Proof.
  intros Hlow. induction s as [| z zs IH].
  - simpl app. destruct l2 as [| y ys]; [reflexivity |].
    rewrite insertSorted_index_lt by (apply Hlow; left; reflexivity). reflexivity.
  - simpl. destruct (compareFn x z) as [c | e]; simpl; [| reflexivity].
    destruct (c <=? 0)%Z; [reflexivity |].
    rewrite IH. destruct (insertSorted x zs) as [r | e]; reflexivity.
Qed.

Lemma sort_app_low (l1 l2 : list GroupedAddress) :
  (forall x y, In x l1 -> In y l2 -> index x < index y) ->
  sort l2 = Ok l2 ->
  sort (l1 ++ l2) = (s <- sort l1 ;; Ok (s ++ l2)).
Proof.
  intros Hlow Hl2. induction l1 as [| x t IH].
  - simpl. rewrite Hl2. reflexivity.
  - simpl. rewrite IH by (intros; apply Hlow; [right |]; assumption).
    destruct (sort t) as [s |] eqn:Hs; simpl; [| reflexivity].
    apply insertSorted_app_low. intros y Hy. apply Hlow; [left; reflexivity | exact Hy].
Qed.

Lemma sort_increasing (l : list GroupedAddress) :
  StronglySorted (fun a b => index a < index b) l -> sort l = Ok l.
Proof.
  induction l as [| x t IH]; intros H; [reflexivity |].
  inversion H as [| ? ? Ht Hx]; subst.
  rewrite (@sort_cons x t t (IH Ht)).
  destruct t as [| y ys]; [reflexivity |].
  apply insertSorted_index_lt. inversion Hx; assumption.
Qed.

Lemma StronglySorted_nth (R : GroupedAddress -> GroupedAddress -> Prop)
    (l : list GroupedAddress) :
  (forall i j p q, i < j -> nth_error l i = Some p -> nth_error l j = Some q -> R p q) ->
  StronglySorted R l.
Proof.
  induction l as [| x t IH]; intros H; constructor.
  - apply IH. intros i j p q Hij Hp Hq. apply (H (S i) (S j)); [lia | exact Hp | exact Hq].
  - apply Forall_forall. intros y Hy. apply In_nth_error in Hy. destruct Hy as [j Hj].
    apply (H 0 (S j)); [lia | reflexivity | exact Hj].
Qed.

Lemma progTokenAddresses_indices {lib : Serialization}
    (this : HDSequentialDiscovery) (manager : Bip32Account)
    (fuel : nat) (addrs progs : list GroupedAddress) :
  derivesFromPath manager ->
  discoveredAddresses this manager fuel = Some addrs ->
  progTokenAddresses addrs = Ok progs ->
  List.length progs = List.length addrs
  /\ forall i p, nth_error progs i = Some p -> index p = maxIndex addrs + (i + 1).
Proof.
  intros Hfaithful Haddrs Hprogs.
  pose proof (@discoveredAddresses_lastIndex this manager Hfaithful fuel addrs Haddrs)
    as Hlast.
  destruct (progTokenAddresses_nth _ Hprogs) as [lastIdx [Hlast' [Hlen Hnth]]].
  rewrite Hlast in Hlast'. injection Hlast' as <-.
  split; [exact Hlen |].
  intros i p Hp.
  assert (Hlt : i < List.length addrs).
  { rewrite <- Hlen. apply nth_error_Some. congruence. }
  destruct (nth_error addrs i) as [a |] eqn:Ha;
    [| apply nth_error_None in Ha; lia].
  destruct (Hnth i a Ha) as [p' [Hp' Hf]].
  rewrite Hp in Hp'. injection Hp' as <-.
  apply progTokenAddress_fields in Hf. lia.
Qed.

(** X5: for an account that copies the derivation path into its
    addresses, the list a run returns is the deduplicated list put in key
    order, followed by all the programmable entries in the order of the
    deduplicated list; it has twice as many entries as the deduplicated
    list. *)
Theorem discover_programmable_tail {lib : Serialization}
    (this : HDSequentialDiscovery) (manager : Bip32Account)
    (fuel : nat) (result : list GroupedAddress) :
  derivesFromPath manager ->
  discover this manager fuel = Some (Ok result) ->
  exists addrs progs sorted,
    discoveredAddresses this manager fuel = Some addrs
    /\ progTokenAddresses addrs = Ok progs
    /\ sort addrs = Ok sorted
    /\ Permutation addrs sorted
    /\ result = sorted ++ progs
    /\ List.length result = 2 * List.length addrs.
Proof.
  intros Hfaithful Hrun.
  destruct (discover_inv _ _ _ Hrun) as [addrs [progs [Haddrs [Hprogs Hsort]]]].
  destruct (@progTokenAddresses_indices lib this manager fuel addrs progs
              Hfaithful Haddrs Hprogs) as [Hlen Hidx].
  rewrite sort_app_low in Hsort.
  - apply bind_Ok_inv in Hsort. destruct Hsort as [sorted [Hsorted Hres]].
    injection Hres as <-. exists addrs, progs, sorted.
    pose proof (sort_Permutation _ Hsorted) as Hperm.
    repeat split; try assumption.
    rewrite length_app, <- (Permutation_length Hperm), Hlen. lia.
  - intros a p Ha Hp. apply In_nth_error in Hp. destruct Hp as [i Hi].
    rewrite (Hidx i p Hi). pose proof (maxIndex_In _ _ Ha). lia.
  - apply sort_increasing. apply StronglySorted_nth.
    intros i j p q Hij Hp Hq. rewrite (Hidx i p Hp), (Hidx j q Hq). lia.
Qed.

Lemma discover_programmable_tail_witness :
  exists result addrs progs sorted,
    @discover Fixture.serialization
      {| this_chainHistoryProvider := Fixture.gapChain; this_lookAheadCount := 3 |}
      Fixture.account 12 = Some (Ok result)
    /\ discoveredAddresses
         {| this_chainHistoryProvider := Fixture.gapChain; this_lookAheadCount := 3 |}
         Fixture.account 12 = Some addrs
    /\ @progTokenAddresses Fixture.serialization addrs = Ok progs
    /\ sort addrs = Ok sorted
    /\ Permutation addrs sorted
    /\ result = sorted ++ progs
    /\ List.length result = 2 * List.length addrs.
Proof.
  eexists.
  assert (Hrun : @discover Fixture.serialization
                   {| this_chainHistoryProvider := Fixture.gapChain;
                      this_lookAheadCount := 3 |}
                   Fixture.account 12 = Some (Ok ?[r])) by (vm_compute; reflexivity).
  destruct (@discover_programmable_tail Fixture.serialization _ _ _ _
              fixture_account_derivesFromPath Hrun)
    as [addrs [progs [sorted H]]].
  exists addrs, progs, sorted. split; [exact Hrun | exact H].
Defined.

(** ** Failures of the programmable transform *)

Lemma mapi_from_throw {A B : Type} (f : A -> nat -> Result B)
    (l1 : list A) (a : A) (l2 : list A) (start : nat) (e : Error) :
  (forall i b, nth_error l1 i = Some b -> exists c, f b (start + i) = Ok c) ->
  f a (start + List.length l1) = Throw e ->
  mapi_from f start (l1 ++ a :: l2) = Throw e.
Proof.
  revert start. induction l1 as [| x t IH]; intros start Hok Hthrow.
  - simpl in *. rewrite Nat.add_0_r in Hthrow. rewrite Hthrow. reflexivity.
  - simpl. destruct (Hok 0 x eq_refl) as [c Hc].
    rewrite Nat.add_0_r in Hc. rewrite Hc. simpl.
    rewrite (IH (S start)); [reflexivity | |].
    + intros i b Hb. destruct (Hok (S i) b Hb) as [c' Hc'].
      exists c'. rewrite Nat.add_succ_r in Hc'. exact Hc'.
    + simpl in Hthrow. rewrite Nat.add_succ_r in Hthrow. exact Hthrow.
Qed.

(** X6: [discover] returns a list or nothing: when the programmable
    transform raises on an address of the deduplicated list (no address, or
    an address of an unsupported kind) and succeeds on those before it, the
    whole run raises that error, whatever the other addresses are. *)
Theorem discover_throws_first_failure {lib : Serialization}
    (this : HDSequentialDiscovery) (manager : Bip32Account) (fuel : nat)
    (l1 : list GroupedAddress) (a : GroupedAddress) (l2 : list GroupedAddress)
    (e : Error) :
  discoveredAddresses this manager fuel = Some (l1 ++ a :: l2) ->
  (forall b, In b l1 ->
             exists s, makeProgrammableTokenAddress (address b) (networkId b) = Ok s) ->
  makeProgrammableTokenAddress (address a) (networkId a) = Throw e ->
  discover this manager fuel = Some (Throw e).
Proof.
  intros Haddrs Hok Hthrow. unfold discover. rewrite Haddrs. cbn [option_map].
  f_equal. unfold withProgrammable, progTokenAddresses.
  assert (Hlast : exists lastIdx, lastIndex (l1 ++ a :: l2) = Ok lastIdx).
  { unfold lastIndex. destruct (rev (l1 ++ a :: l2)) as [| z zs] eqn:Hrev.
    - apply (f_equal (@List.length _)) in Hrev.
      rewrite length_rev, length_app in Hrev. simpl in Hrev. lia.
    - eexists. reflexivity. }
  destruct Hlast as [lastIdx ->]. cbn [bind]. unfold mapi.
  rewrite (@mapi_from_throw _ _ (progTokenAddress lastIdx) l1 a l2 0 e); [reflexivity | |].
  - intros i b Hb. apply nth_error_In in Hb. destruct (Hok b Hb) as [s Hs].
    unfold progTokenAddress. rewrite Hs. cbn [bind]. eexists. reflexivity.
  - unfold progTokenAddress. rewrite Hthrow. reflexivity.
Qed.

Lemma discover_throws_first_failure_witness :
  @discover Fixture.serialization
    {| this_chainHistoryProvider := Fixture.emptyChain; this_lookAheadCount := 0 |}
    DiscoveryFixture.rewardOnlyAccount 8
  = Some (Throw UnsupportedAddressType).
Proof.
  apply (@discover_throws_first_failure Fixture.serialization
           {| this_chainHistoryProvider := Fixture.emptyChain; this_lookAheadCount := 0 |}
           DiscoveryFixture.rewardOnlyAccount 8
           [] (paymentAddress DiscoveryFixture.rewardOnlyAccount External 0) []).
  - vm_compute. reflexivity.
  - intros b [].
  - vm_compute. reflexivity.
Defined.

Section DeriverMore.
Context {lib : Serialization}.

(** X7: the transform raises a type error exactly on a string that is no
    address, raises the unsupported-kind error exactly on an address that is
    neither enterprise nor base (pointer, reward, byron), and returns
    otherwise; the network id plays no part in that. *)
Theorem makeProgrammableTokenAddress_failures (userAddress : string)
    (networkId : Cardano.NetworkId) :
  (makeProgrammableTokenAddress userAddress networkId = Throw TypeError
   <-> fromString userAddress = None)
  /\ (makeProgrammableTokenAddress userAddress networkId = Throw UnsupportedAddressType
      <-> exists parsed,
            fromString userAddress = Some parsed
            /\ In (Cardano.getType parsed)
                 [Cardano.PointerKey; Cardano.PointerScript; Cardano.Byron;
                  Cardano.RewardKey; Cardano.RewardScript])
  /\ ((exists out, makeProgrammableTokenAddress userAddress networkId = Ok out)
      <-> exists parsed,
            fromString userAddress = Some parsed
            /\ In (Cardano.getType parsed)
                 [Cardano.EnterpriseKey; Cardano.EnterpriseScript;
                  Cardano.BasePaymentKeyStakeKey; Cardano.BasePaymentScriptStakeKey;
                  Cardano.BasePaymentKeyStakeScript;
                  Cardano.BasePaymentScriptStakeScript]).
Proof.
  unfold makeProgrammableTokenAddress.
  destruct (fromString userAddress) as [parsed |].
  - repeat split.
    + destruct parsed as [[n [h1 []] [h2 []]] | [n [h []]] | n [h []] p | n [h []] | s];
        cbv; intros H; discriminate H.
    + intros H; discriminate H.
    + intros H. exists parsed. split; [reflexivity |].
      destruct parsed as [[n [h1 []] [h2 []]] | [n [h []]] | n [h []] p | n [h []] | s];
        cbv in H; try discriminate H; simpl; tauto.
    + intros [parsed' [Hp Hin]]. injection Hp as <-.
      destruct parsed as [[n [h1 []] [h2 []]] | [n [h []]] | n [h []] p | n [h []] | s];
        simpl in Hin; try reflexivity;
        repeat (destruct Hin as [Hin | Hin]; [discriminate Hin |]); destruct Hin.
    + intros [out H]. exists parsed. split; [reflexivity |].
      destruct parsed as [[n [h1 []] [h2 []]] | [n [h []]] | n [h []] p | n [h []] | s];
        cbv in H; try discriminate H; simpl; tauto.
    + intros [parsed' [Hp Hin]]. injection Hp as <-.
      destruct parsed as [[n [h1 []] [h2 []]] | [n [h []]] | n [h []] p | n [h []] | s];
        simpl in Hin; try (eexists; reflexivity);
        repeat (destruct Hin as [Hin | Hin]; [discriminate Hin |]); destruct Hin.
  - repeat split; try reflexivity.
    + intros H; discriminate H.
    + intros [parsed [H _]]; discriminate H.
    + intros [out H]; discriminate H.
    + intros [parsed [H _]]; discriminate H.
Qed.

(** The base address the transform builds, before encoding. *)
Lemma makeProgrammableTokenAddress_built (userAddress : string)
    (parsed : Cardano.Address) (payment : Cardano.Credential)
    (networkId : Cardano.NetworkId) :
  fromString userAddress = Some parsed ->
  Cardano.supported (Cardano.getType parsed) = true ->
  Cardano.paymentCredentialOf parsed = Some payment ->
  makeProgrammableTokenAddress userAddress networkId
  = Ok (toBech32 (Cardano.OfBase (Cardano.fromCredentials networkId
                                    programmableLogicCredential payment))).
Proof.
  intros Hp Hs Hc. unfold makeProgrammableTokenAddress. rewrite Hp.
  destruct (getPaymentCredential_supported parsed Hs) as [c [Hc' ->]].
  rewrite Hc in Hc'. injection Hc' as <-. reflexivity.
Qed.

(** X8: the stake credential of the input plays no part: two supported
    addresses give the encoding of the same base address exactly when they
    have the same payment credential and are asked for the same network. *)
Theorem makeProgrammableTokenAddress_same_iff
    (s1 s2 : string) (a1 a2 : Cardano.Address) (n1 n2 : Cardano.NetworkId) :
  fromString s1 = Some a1 -> fromString s2 = Some a2 ->
  Cardano.supported (Cardano.getType a1) = true ->
  Cardano.supported (Cardano.getType a2) = true ->
  exists b1 b2,
    makeProgrammableTokenAddress s1 n1 = Ok (toBech32 (Cardano.OfBase b1))
    /\ makeProgrammableTokenAddress s2 n2 = Ok (toBech32 (Cardano.OfBase b2))
    /\ (b1 = b2
        <-> Cardano.paymentCredentialOf a1 = Cardano.paymentCredentialOf a2 /\ n1 = n2).
Proof.
  intros Hp1 Hp2 Hs1 Hs2.
  destruct (getPaymentCredential_supported a1 Hs1) as [c1 [Hc1 _]].
  destruct (getPaymentCredential_supported a2 Hs2) as [c2 [Hc2 _]].
  exists (Cardano.fromCredentials n1 programmableLogicCredential c1),
         (Cardano.fromCredentials n2 programmableLogicCredential c2).
  split; [exact (makeProgrammableTokenAddress_built s1 n1 Hp1 Hs1 Hc1) |].
  split; [exact (makeProgrammableTokenAddress_built s2 n2 Hp2 Hs2 Hc2) |].
  rewrite Hc1, Hc2. unfold Cardano.fromCredentials. split.
  - intros H. injection H as Hn Hc. subst. split; reflexivity.
  - intros [Hc Hn]. injection Hc as ->. subst. reflexivity.
Qed.

(** X9: applying the transform to its own output, when that output reads
    back as the address it encodes, gives the base address whose two
    credentials are the script credential: the credential of the user is
    gone after the second application. *)
Theorem makeProgrammableTokenAddress_twice
    (userAddress : string) (parsed : Cardano.Address) (payment : Cardano.Credential)
    (n n' : Cardano.NetworkId) :
  fromString userAddress = Some parsed ->
  Cardano.supported (Cardano.getType parsed) = true ->
  Cardano.paymentCredentialOf parsed = Some payment ->
  let built :=
    Cardano.OfBase (Cardano.fromCredentials n programmableLogicCredential payment) in
  fromString (toBech32 built) = Some built ->
  makeProgrammableTokenAddress userAddress n = Ok (toBech32 built)
  /\ makeProgrammableTokenAddress (toBech32 built) n'
     = Ok (toBech32 (Cardano.OfBase
                       (Cardano.fromCredentials n'
                          programmableLogicCredential programmableLogicCredential))).
Proof.
  intros Hp Hs Hc built Hback. split.
  - exact (makeProgrammableTokenAddress_built userAddress n Hp Hs Hc).
  - apply (@makeProgrammableTokenAddress_built (toBech32 built) built).
    + exact Hback.
    + simpl. destruct (Cardano.type payment); reflexivity.
    + reflexivity.
Qed.
End DeriverMore.

Lemma makeProgrammableTokenAddress_same_iff_witness :
  exists b1 b2,
    @makeProgrammableTokenAddress Fixture.serialization
      (Fixture.addressAt External 0 0) Cardano.Testnet
    = Ok (@toBech32 Fixture.serialization (Cardano.OfBase b1))
    /\ @makeProgrammableTokenAddress Fixture.serialization
         (Fixture.addressAt External 0 1) Cardano.Testnet
       = Ok (@toBech32 Fixture.serialization (Cardano.OfBase b2))
    /\ (b1 = b2
        <-> Cardano.paymentCredentialOf
              (Cardano.OfBase
                 (Cardano.fromCredentials Cardano.Testnet
                    (Fixture.paymentCredential
                       {| AccountAddressDerivationPath.index := 0;
                          AccountAddressDerivationPath.type := External |})
                    (Fixture.stakeCredential 0)))
            = Cardano.paymentCredentialOf
                (Cardano.OfBase
                   (Cardano.fromCredentials Cardano.Testnet
                      (Fixture.paymentCredential
                         {| AccountAddressDerivationPath.index := 0;
                            AccountAddressDerivationPath.type := External |})
                      (Fixture.stakeCredential 1)))
            /\ Cardano.Testnet = Cardano.Testnet).
Proof.
  apply (@makeProgrammableTokenAddress_same_iff Fixture.serialization
           (Fixture.addressAt External 0 0) (Fixture.addressAt External 0 1)).
  - vm_compute. reflexivity.
  - vm_compute. reflexivity.
  - vm_compute. reflexivity.
  - vm_compute. reflexivity.
Defined.

Lemma makeProgrammableTokenAddress_twice_witness :
  let built :=
    Cardano.OfBase
      (Cardano.fromCredentials Cardano.Testnet
         (@programmableLogicCredential Fixture.serialization)
         (Fixture.paymentCredential
            {| AccountAddressDerivationPath.index := 0;
               AccountAddressDerivationPath.type := External |})) in
  @makeProgrammableTokenAddress Fixture.serialization
    (Fixture.addressAt External 0 0) Cardano.Testnet
  = Ok (@toBech32 Fixture.serialization built)
  /\ @makeProgrammableTokenAddress Fixture.serialization
       (@toBech32 Fixture.serialization built) Cardano.Mainnet
     = Ok (@toBech32 Fixture.serialization
             (Cardano.OfBase
                (Cardano.fromCredentials Cardano.Mainnet
                   (@programmableLogicCredential Fixture.serialization)
                   (@programmableLogicCredential Fixture.serialization)))).
Proof.
  apply (@makeProgrammableTokenAddress_twice Fixture.serialization
           (Fixture.addressAt External 0 0)
           (Cardano.OfBase
              (Cardano.fromCredentials Cardano.Testnet
                 (Fixture.paymentCredential
                    {| AccountAddressDerivationPath.index := 0;
                       AccountAddressDerivationPath.type := External |})
                 (Fixture.stakeCredential 0)))).
  - vm_compute. reflexivity.
  - vm_compute. reflexivity.
  - reflexivity.
  - vm_compute. reflexivity.
Defined.

(** * Properties of the CIP-20 messages *)

Section CIP20Facts.
Import CIP20.
Context {utils : StringUtils}.

(** The result of validating an oversize string. *)
Local Abbreviation oversizeResult := {| valid := false; failure := Some oversize |}.

Local Abbreviation step :=
  (fun (acc : ValidationResultMap) (message : string) =>
     let result := validateMessage (JsString message) in
     if negb (valid result) then Map_set message result acc else acc).

Lemma validateMessage_string (s : string) :
  validateMessage (JsString s)
  = if MAX_BYTES <? byteSize s
    then oversizeResult
    else {| valid := true; failure := None |}.
Proof. reflexivity. Qed.

Lemma Map_set_known (k : string) (v : MessageValidationResult) (m : ValidationResultMap) :
  In k (map fst m) -> map fst (Map_set k v m) = map fst m.
Proof.
  induction m as [| [k' v'] t IH]; simpl; [tauto |].
  destruct (String.eqb_spec k' k) as [-> | Hne]; [reflexivity |].
  intros [Heq | Hin]; [congruence |]. simpl. rewrite IH by exact Hin. reflexivity.
Qed.

Lemma Map_set_new (k : string) (v : MessageValidationResult) (m : ValidationResultMap) :
  ~ In k (map fst m) -> Map_set k v m = m ++ [(k, v)].
Proof.
  induction m as [| [k' v'] t IH]; simpl; [reflexivity |].
  intros Hnot. destruct (String.eqb_spec k' k) as [-> | Hne]; [tauto |].
  rewrite IH by tauto. reflexivity.
Qed.

Lemma Map_set_values (P : MessageValidationResult -> Prop) (k : string)
    (v : MessageValidationResult) (m : ValidationResultMap) :
  P v -> Forall (fun kv => P (snd kv)) m -> Forall (fun kv => P (snd kv)) (Map_set k v m).
Proof.
  intros Hv. induction m as [| [k' v'] t IH]; simpl; intros Hm.
  - constructor; [exact Hv | constructor].
  - inversion Hm as [| ? ? Hh Ht]; subst.
    destruct (String.eqb k' k); constructor; auto.
Qed.

Lemma Map_set_keys (k : string) (v : MessageValidationResult) (m : ValidationResultMap)
    (s : string) :
  In s (map fst (Map_set k v m)) <-> s = k \/ In s (map fst m).
Proof.
  destruct (in_dec string_dec k (map fst m)) as [Hin | Hnot].
  - rewrite Map_set_known by exact Hin. split; [tauto |].
    intros [-> | H]; assumption.
  - rewrite Map_set_new by exact Hnot. rewrite map_app, in_app_iff. simpl.
    split; [intros [H | [H | []]]; auto | intros [H | H]; auto].
Qed.

Lemma Map_set_NoDup (k : string) (v : MessageValidationResult) (m : ValidationResultMap) :
  NoDup (map fst m) -> NoDup (map fst (Map_set k v m)).
Proof.
  intros Hm. destruct (in_dec string_dec k (map fst m)) as [Hin | Hnot].
  - rewrite Map_set_known by exact Hin. exact Hm.
  - rewrite Map_set_new by exact Hnot. rewrite map_app. simpl.
    apply NoDup_app; [exact Hm | repeat constructor; simpl; tauto |].
    intros x Hx [<- | []]. exact (Hnot Hx).
Qed.

Lemma Map_set_head (k : string) (v : MessageValidationResult)
    (kv : string * MessageValidationResult) (m : ValidationResultMap) :
  exists v' t, Map_set k v (kv :: m) = (fst kv, v') :: t.
Proof.
  destruct kv as [k0 v0]. simpl.
  destruct (String.eqb_spec k0 k) as [-> | Hne]; eexists; eexists; reflexivity.
Qed.

(** What the loop keeps, from any map it starts with. *)
Lemma collect_invariant (messages : list string) (acc : ValidationResultMap) :
  let out := fold_left step messages acc in
  (forall s, In s (map fst out)
             <-> In s (map fst acc) \/ (In s messages /\ MAX_BYTES < byteSize s))
  /\ (NoDup (map fst acc) -> NoDup (map fst out))
  /\ (Forall (fun kv => snd kv = oversizeResult) acc ->
      Forall (fun kv => snd kv = oversizeResult) out)
  /\ (forall kv t, acc = kv :: t -> exists v' t', out = (fst kv, v') :: t').
Proof.
  revert acc. induction messages as [| m ms IH]; intros acc.
  - simpl. split; [| split; [| split]].
    + intros s. tauto.
    + tauto.
    + tauto.
    + intros kv t ->. destruct kv. eexists; eexists; reflexivity.
  - cbv zeta. simpl fold_left.
    destruct (IH (step acc m)) as [Hkeys [Hnodup [Hvals Hhead]]].
    cbv zeta in Hkeys, Hnodup, Hvals, Hhead.
    cbv beta in Hkeys, Hnodup, Hvals, Hhead |- *.
    rewrite validateMessage_string in *.
    destruct (Nat.ltb_spec MAX_BYTES (byteSize m)) as [Hbig | Hsmall];
      cbn [valid negb] in *.
    + split; [| split; [| split]].
      * intros s. rewrite Hkeys, Map_set_keys. simpl In. split.
        -- intros [[-> | H] | [H1 H2]]; auto.
        -- intros [H | [[-> | H1] H2]]; auto.
      * intros H. apply Hnodup. apply Map_set_NoDup. exact H.
      * intros H. apply Hvals.
        apply (@Map_set_values (fun v => v = oversizeResult)); [reflexivity | exact H].
      * intros kv t ->. destruct (Map_set_head m oversizeResult kv t) as [v' [t' Heq]].
        apply (Hhead (fst kv, v') t'). rewrite Heq. reflexivity.
    + split; [| split; [| split]].
      * intros s. rewrite Hkeys. simpl In. split.
        -- intros [H | [H1 H2]]; auto.
        -- intros [H | [[-> | H1] H2]]; auto. lia.
      * exact Hnodup.
      * exact Hvals.
      * exact Hhead.
Qed.

Lemma invalidMessages_invariant (messages : list string) :
  (forall s, In s (map fst (invalidMessages messages))
             <-> In s messages /\ MAX_BYTES < byteSize s)
  /\ NoDup (map fst (invalidMessages messages))
  /\ Forall (fun kv => snd kv = oversizeResult) (invalidMessages messages).
Proof.
  destruct (collect_invariant messages []) as [Hkeys [Hnodup [Hvals _]]].
  split; [| split].
  - intros s. unfold invalidMessages. rewrite (Hkeys s). simpl. tauto.
  - apply Hnodup. constructor.
  - apply Hvals. constructor.
Qed.

Lemma invalidMessages_empty_iff (messages : list string) :
  invalidMessages messages = [] <-> Forall (fun s => byteSize s <= MAX_BYTES) messages.
Proof.
  destruct (invalidMessages_invariant messages) as [Hkeys _].
  split.
  - intros Hnil. apply Forall_forall. intros s Hs.
    destruct (Nat.le_gt_cases (byteSize s) MAX_BYTES) as [H | H]; [exact H |].
    assert (Hin : In s (map fst (invalidMessages messages))) by (apply Hkeys; auto).
    rewrite Hnil in Hin. destruct Hin.
  - intros Hall. destruct (invalidMessages messages) as [| [k v] t] eqn:Heq; [reflexivity |].
    assert (Hin : In k (map fst ((k, v) :: t))) by (left; reflexivity).
    apply Hkeys in Hin. destruct Hin as [Hk Hbig].
    rewrite Forall_forall in Hall. specialize (Hall k Hk). lia.
Qed.

(** X10: [toCIP20Metadata] returns exactly when every message (every
    chunk, for a string argument) is at most 64 bytes long, and then it
    returns the map from label 674 to the map from ["msg"] to the messages,
    unchanged and in order; in every other case it raises. *)
Theorem toCIP20Metadata_returns_iff (args : Args) :
  (Forall (fun s => byteSize s <= 64) (messagesOf args) ->
   toCIP20Metadata args
   = Returned [(674%Z,
                CardanoMetadata.MMap
                  [(CardanoMetadata.MText "msg",
                    CardanoMetadata.MList
                      (map CardanoMetadata.MText (messagesOf args)))])])
  /\ ((exists md, toCIP20Metadata args = Returned md)
      <-> Forall (fun s => byteSize s <= 64) (messagesOf args))
  /\ ((exists s, In s (messagesOf args) /\ 64 < byteSize s)
      -> exists e, toCIP20Metadata args = Raised e).
Proof.
  unfold toCIP20Metadata. cbv zeta.
  pose proof (invalidMessages_empty_iff (messagesOf args)) as Hiff.
  unfold MAX_BYTES in Hiff.
  destruct (invalidMessages (messagesOf args)) as [| kv t] eqn:Heq; simpl.
  - assert (Hall : Forall (fun s => byteSize s <= 64) (messagesOf args))
      by (apply Hiff; reflexivity).
    split; [reflexivity |]. split.
    + split; [intros _; exact Hall | intros _; eexists; reflexivity].
    + intros [s [Hs Hbig]]. rewrite Forall_forall in Hall.
      specialize (Hall s Hs). lia.
  - split; [| split].
    + intros Hall. apply Hiff in Hall. discriminate Hall.
    + split; [intros [md H]; discriminate H | intros Hall; apply Hiff in Hall; discriminate Hall].
    + intros _. eexists. reflexivity.
Qed.

(** X11: the map of failures that the loop builds has one entry for every
    message longer than 64 bytes, and no other entry: its keys are pairwise
    distinct, a message is a key exactly when it occurs in the input and is
    oversize, and every value is the oversize failure. *)
Theorem invalidMessages_exact (messages : list string) :
  NoDup (map fst (invalidMessages messages))
  /\ (forall s, In s (map fst (invalidMessages messages))
                <-> In s messages /\ 64 < byteSize s)
  /\ Forall (fun kv => snd kv = {| valid := false; failure := Some oversize |})
       (invalidMessages messages).
Proof.
  destruct (invalidMessages_invariant messages) as [Hkeys [Hnodup Hvals]].
  split; [exact Hnodup |]. split; [| exact Hvals].
  intros s. rewrite Hkeys. unfold MAX_BYTES. tauto.
Qed.

Lemma invalidMessages_first (pre : list string) (s : string) (post : list string) :
  Forall (fun m => byteSize m <= MAX_BYTES) pre ->
  MAX_BYTES < byteSize s ->
  exists t, invalidMessages (pre ++ s :: post) = (s, oversizeResult) :: t.
Proof.
  intros Hpre Hbig.
  assert (Hpre' : fold_left step pre [] = [])
    by exact (proj2 (invalidMessages_empty_iff pre) Hpre).
  change (invalidMessages (pre ++ s :: post))
    with (fold_left step (pre ++ s :: post) []).
  rewrite fold_left_app, Hpre'. cbn [fold_left]. cbv zeta.
  rewrite validateMessage_string.
  destruct (Nat.ltb_spec MAX_BYTES (byteSize s)) as [_ | Hsmall]; [| lia].
  cbn [valid negb Map_set].
  destruct (collect_invariant post [(s, oversizeResult)]) as [_ [_ [Hvals Hhead]]].
  destruct (Hhead (s, oversizeResult) [] eq_refl) as [v' [t' Heq]].
  simpl in Heq. exists t'.
  assert (Hall : Forall (fun kv => snd kv = oversizeResult) ((s, v') :: t')).
  { rewrite <- Heq. apply Hvals. repeat constructor. }
  inversion Hall as [| ? ? Hv _]; subst. simpl in Hv. subst v'. exact Heq.
Qed.

(** X12: the text of the error names one message only: the first
    oversize message of the list, cut after 65 code units.  The messages
    after it, valid or not, do not change the error. *)
Theorem toCIP20Metadata_error_text (pre : list string) (s : string) (post : list string) :
  Forall (fun m => byteSize m <= 64) pre ->
  64 < byteSize s ->
  toCIP20Metadata (OfMessages (pre ++ s :: post))
  = Raised (MessageValidationError
              ("The provided message array contains validation errors | Oversize: "
               ++ substring 0 65 s)%string).
Proof.
  intros Hpre Hbig. unfold toCIP20Metadata. cbv zeta. simpl messagesOf.
  destruct (@invalidMessages_first pre s post Hpre Hbig) as [t ->].
  reflexivity.
Qed.
End CIP20Facts.

Lemma toCIP20Metadata_error_text_witness :
  @CIP20.toCIP20Metadata CIP20.asciiUtils
    (CIP20.OfMessages
       (["hello"%string] ++ Fixture.digits "a" 70 :: [Fixture.digits "b" 90]))
  = CIP20.Raised
      (CIP20.MessageValidationError
         ("The provided message array contains validation errors | Oversize: "
          ++ substring 0 65 (Fixture.digits "a" 70))%string).
Proof.
  apply (@toCIP20Metadata_error_text CIP20.asciiUtils
           ["hello"%string] (Fixture.digits "a" 70) [Fixture.digits "b" 90]).
  - constructor; [vm_compute; lia | constructor].
  - vm_compute. lia.
Defined.

(** * Properties of the delegation portfolio *)

Section DelegationPortfolioFacts.
Import DelegationPortfolio.
Context {core : Core}.

Lemma portfolioLoop_cons (tx : HydratedTx) (rest : list HydratedTx) :
  portfolioLoop (tx :: rest)
  = if decisive tx then verdict tx else portfolioLoop rest.
Proof.
  unfold decisive, verdict. simpl.
  destruct (portfolioOf tx) as [m |]; simpl.
  - destruct (CardanoMetadata.truthy m),
             (hasDelegationCert (certificates (body tx))); reflexivity.
  - destruct (hasDelegationCert (certificates (body tx))); reflexivity.
Qed.

Lemma portfolioLoop_app (l1 l2 : list HydratedTx) :
  portfolioLoop (l1 ++ l2)
  = if existsb decisive l1 then portfolioLoop l1 else portfolioLoop l2.
Proof.
  induction l1 as [| tx t IH]; [reflexivity |].
  simpl app. rewrite !portfolioLoop_cons. simpl existsb.
  destruct (decisive tx); [reflexivity | exact IH].
Qed.

Lemma existsb_decisive_rev (l : list HydratedTx) :
  existsb decisive (rev l) = existsb decisive l.
Proof.
  induction l as [| tx t IH]; [reflexivity |].
  simpl. rewrite existsb_app, IH. simpl. rewrite orb_false_r. apply orb_comm.
Qed.

(** X13: the portfolio of a history that is the concatenation of an older
    and a newer part is the portfolio of the newer part when that part holds
    a transaction with a portfolio or a delegation certificate, and the
    portfolio of the older part otherwise. *)
Theorem delegationPortfolio_app (older newer : list HydratedTx) :
  delegationPortfolio (older ++ newer)
  = if existsb decisive newer
    then delegationPortfolio newer
    else delegationPortfolio older.
Proof.
  unfold delegationPortfolio. rewrite rev_app_distr, portfolioLoop_app.
  rewrite existsb_decisive_rev. reflexivity.
Qed.

(** X14: the last transaction of the history that carries a (truthy)
    portfolio metadatum or a delegation certificate decides alone: with a
    portfolio the result is what it reads as, also when the transaction has
    certificates; with certificates only the result is [null], whatever
    portfolios came before.  A history without such a transaction, the empty
    one included, gives [null]. *)
Theorem delegationPortfolio_last_decisive :
  (forall before t after,
      decisive t = true ->
      Forall (fun tx => decisive tx = false) after ->
      delegationPortfolio (before ++ t :: after) = verdict t
      /\ (present (portfolioOf t) = false ->
          delegationPortfolio (before ++ t :: after) = Ok None))
  /\ (forall txs,
        Forall (fun tx => decisive tx = false) txs ->
        delegationPortfolio txs = Ok None).
Proof.
  assert (Hnone : forall txs,
             Forall (fun tx => decisive tx = false) txs ->
             portfolioLoop (rev txs) = Ok None).
  { intros txs H. apply Forall_rev in H.
    induction (rev txs) as [| tx t IH]; [reflexivity |].
    inversion H as [| ? ? Htx Ht]; subst.
    rewrite portfolioLoop_cons, Htx. exact (IH Ht). }
  split; [| exact Hnone].
  intros before t after Ht Hafter.
  assert (Heq : delegationPortfolio (before ++ t :: after) = verdict t).
  { unfold delegationPortfolio. rewrite rev_app_distr. simpl rev.
    rewrite <- app_assoc, portfolioLoop_app.
    assert (Hq : existsb decisive (rev after) = false).
    { rewrite existsb_decisive_rev.
      induction Hafter as [| tx l Htx _ IH]; [reflexivity |].
      simpl. rewrite Htx, IH. reflexivity. }
    rewrite Hq. simpl app. rewrite portfolioLoop_cons, Ht. reflexivity. }
  split; [exact Heq |].
  intros Habsent. rewrite Heq. unfold verdict. unfold present in Habsent.
  destruct (portfolioOf t) as [m |]; [| reflexivity].
  rewrite Habsent. reflexivity.
Qed.
End DelegationPortfolioFacts.

Lemma delegationPortfolio_last_decisive_witness :
  @DelegationPortfolio.delegationPortfolio DelegationPortfolio.sampleCore
    ([DelegationPortfolio.portfolioTx]
     ++ DelegationPortfolio.deregistrationTx :: [DelegationPortfolio.paymentTx])
  = Ok None.
Proof.
  refine (proj2 (proj1 (@delegationPortfolio_last_decisive DelegationPortfolio.sampleCore)
                   [DelegationPortfolio.portfolioTx]
                   DelegationPortfolio.deregistrationTx
                   [DelegationPortfolio.paymentTx] _ _) _).
  - reflexivity.
  - constructor; [reflexivity | constructor].
  - reflexivity.
Defined.

(** * Properties of the Blockfrost client factory *)

Section BlockfrostFacts.
Import Blockfrost.
Context {defaults : Defaults}.

Lemma getBlockfrostClient_cached (env : Env) (st : State) (client : BlockfrostClient) :
  blockfrostClient st = Some client ->
  getBlockfrostClient env st = (Returned client, st).
Proof. intros H. unfold getBlockfrostClient. rewrite H. reflexivity. Qed.

(** One call from an empty variable: it raises and leaves the state as it
    is, or it constructs one client, stores it and returns it. *)
Lemma getBlockfrostClient_fresh (env : Env) (st : State) :
  blockfrostClient st = None ->
  (exists message, getBlockfrostClient env st = (Thrown message, st))
  \/ (exists client,
        getBlockfrostClient env st
        = (Returned client,
           {| blockfrostClient := Some client; constructed := S (constructed st) |})).
Proof.
  intros H. unfold getBlockfrostClient. rewrite H.
  destruct (truthy (BLOCKFROST_CUSTOM_BACKEND_URL env)); [right; eexists; reflexivity |].
  destruct (truthy (BLOCKFROST_API_KEY env)); simpl; [| left; eexists; reflexivity].
  destruct (truthy (NETWORK env)); simpl; [| left; eexists; reflexivity].
  destruct (truthyValue (urlProperty _)); simpl;
    [right | left]; eexists; reflexivity.
Qed.

Lemma calls_cached (envs : list Env) (st : State) (client : BlockfrostClient) :
  blockfrostClient st = Some client ->
  calls envs st = (repeat (Returned client) (List.length envs), st).
Proof.
  intros H. induction envs as [| env rest IH]; [reflexivity |].
  simpl. rewrite (getBlockfrostClient_cached env st H), IH. reflexivity.
Qed.

Lemma calls_fresh (envs : list Env) (st : State) :
  blockfrostClient st = None ->
  exists k messages,
    (k = List.length envs /\ List.length messages = k
     /\ calls envs st = (map Thrown messages, st))
    \/ (exists client,
          k < List.length envs /\ List.length messages = k
          /\ calls envs st
             = (map Thrown messages
                ++ repeat (Returned client) (List.length envs - k),
                {| blockfrostClient := Some client;
                   constructed := S (constructed st) |})).
Proof.
  intros H. induction envs as [| env rest IH].
  - exists 0, []. left. repeat split.
  - simpl calls. destruct (getBlockfrostClient_fresh env st H) as [[message ->] | [client ->]].
    + destruct IH as [k [messages [[Hk [Hlen ->]] | [client [Hk [Hlen ->]]]]]].
      * exists (S k), (message :: messages). left. simpl. repeat split; congruence.
      * exists (S k), (message :: messages). right. exists client.
        simpl. repeat split; [lia | congruence].
    + exists 0, []. right. exists client.
      rewrite (@calls_cached rest
                 {| blockfrostClient := Some client; constructed := S (constructed st) |}
                 client eq_refl).
      simpl. repeat split. lia.
Qed.

(** X15: over any sequence of calls from the start, under environments
    that may change from call to call, at most one client is ever
    constructed: the calls raise until one succeeds, and from then on every
    call returns that one client, whatever the environment has become. *)
Theorem getBlockfrostClient_singleton (envs : list Env) :
  exists messages outcomes st,
    calls envs initial = (map Thrown messages ++ outcomes, st)
    /\ constructed st <= 1
    /\ ((outcomes = [] /\ st = initial)
        \/ (exists client,
              outcomes
              = repeat (Returned client) (List.length envs - List.length messages)
              /\ List.length messages < List.length envs
              /\ blockfrostClient st = Some client
              /\ constructed st = 1)).
Proof.
  destruct (@calls_fresh envs initial eq_refl)
    as [k [messages [[Hk [Hlen Hrun]] | [client [Hk [Hlen Hrun]]]]]].
  - exists messages, [], initial. rewrite app_nil_r.
    split; [exact Hrun |]. split; [simpl; lia | left; split; reflexivity].
  - eexists messages, _, _. split; [exact Hrun |]. split; [simpl; lia |].
    right. exists client. rewrite Hlen. repeat split. exact Hk.
Qed.

Lemma urlProperty_falsy (network : string) :
  truthyValue (urlProperty network) = false
  <-> DEFAULT_BLOCKFROST_URLS network = Some EmptyString
      \/ (DEFAULT_BLOCKFROST_URLS network = None
          /\ ~ In network objectPrototypeMembers).
Proof.
  unfold urlProperty.
  destruct (DEFAULT_BLOCKFROST_URLS network) as [url |].
  - cbn [truthyValue].
    destruct (String.eqb_spec url EmptyString) as [-> | Hne]; simpl.
    + split; [intros _; left; reflexivity | reflexivity].
    + split; [discriminate |]. intros [H | [H _]]; [| discriminate H].
      injection H as H. contradiction.
  - destruct (existsb (String.eqb network) objectPrototypeMembers) eqn:Hmember;
      cbn [truthyValue].
    + split; [discriminate |]. intros [H | [_ Hnot]]; [discriminate H |].
      exfalso. apply Hnot. apply existsb_exists in Hmember.
      destruct Hmember as [name [Hin Heq]]. apply String.eqb_eq in Heq.
      subst name. exact Hin.
    + split; [| reflexivity]. intros _. right. split; [reflexivity |].
      intros Hin. assert (Htrue : existsb (String.eqb network) objectPrototypeMembers = true).
      { apply existsb_exists. exists network. split; [exact Hin | apply String.eqb_refl]. }
      congruence.
Qed.

(** X16: a call raises exactly when no client is stored, no custom
    backend URL is set, and the API key is missing, or the network is
    missing, or reading the network out of [DEFAULT_BLOCKFROST_URLS] gives
    nothing truthy: the network is an own key with an empty URL, or it is
    neither an own key nor a name inherited from [Object.prototype].  An empty
    string counts as missing; the missing key is reported before the missing
    network; a call that raises stores nothing.  A network such as
    [constructor], which has no URL but names an inherited member, does not
    raise: a client is constructed with that member as base URL, and
    stored. *)
Theorem getBlockfrostClient_throws (env : Env) (st : State) :
  ((exists message, fst (getBlockfrostClient env st) = Thrown message)
   <-> blockfrostClient st = None
       /\ truthy (BLOCKFROST_CUSTOM_BACKEND_URL env) = false
       /\ (truthy (BLOCKFROST_API_KEY env) = false
           \/ truthy (NETWORK env) = false
           \/ exists network,
                NETWORK env = Some network
                /\ (DEFAULT_BLOCKFROST_URLS network = Some EmptyString
                    \/ (DEFAULT_BLOCKFROST_URLS network = None
                        /\ ~ In network objectPrototypeMembers))))
  /\ (forall message,
        fst (getBlockfrostClient env st) = Thrown message ->
        snd (getBlockfrostClient env st) = st)
  /\ (blockfrostClient st = None ->
      truthy (BLOCKFROST_CUSTOM_BACKEND_URL env) = false ->
      truthy (BLOCKFROST_API_KEY env) = false ->
      fst (getBlockfrostClient env st)
      = Thrown "BLOCKFROST_API_KEY or BLOCKFROST_CUSTOM_BACKEND_URL environment variable is required")
  /\ (forall network,
        blockfrostClient st = None ->
        truthy (BLOCKFROST_CUSTOM_BACKEND_URL env) = false ->
        truthy (BLOCKFROST_API_KEY env) = true ->
        NETWORK env = Some network ->
        DEFAULT_BLOCKFROST_URLS network = None ->
        In network objectPrototypeMembers ->
        exists client,
          getBlockfrostClient env st
          = (Returned client,
             {| blockfrostClient := Some client; constructed := S (constructed st) |})
          /\ baseUrl client = InheritedMember network
          /\ projectId client = BLOCKFROST_API_KEY env).
Proof.
  split; [| split; [| split]].
  - unfold getBlockfrostClient.
    destruct (blockfrostClient st) as [client |] eqn:Hcache.
    { simpl. split; [intros [message H]; discriminate H | intros [H _]; discriminate H]. }
    destruct (truthy (BLOCKFROST_CUSTOM_BACKEND_URL env)) eqn:Hcustom; simpl.
    { split; [intros [message H]; discriminate H | intros [_ [H _]]; discriminate H]. }
    destruct (truthy (BLOCKFROST_API_KEY env)) eqn:Hkey; simpl.
    + destruct (NETWORK env) as [network |] eqn:Hnet; simpl.
      * destruct (negb (String.eqb network EmptyString)) eqn:Hnonempty; simpl.
        -- destruct (truthyValue (urlProperty network)) eqn:Hurl; simpl.
           ++ split; [intros [message H]; discriminate H |].
              intros [_ [_ [H | [H | [n [Hn H]]]]]]; try discriminate H.
              injection Hn as <-. apply urlProperty_falsy in H. congruence.
           ++ split; [intros _ | intros _; eexists; reflexivity].
              repeat split. right. right. exists network.
              split; [reflexivity | apply urlProperty_falsy; exact Hurl].
        -- split; [intros _ | intros _; eexists; reflexivity].
           repeat split. right. left. reflexivity.
      * split; [intros _ | intros _; eexists; reflexivity].
        repeat split. right. left. reflexivity.
    + split; [intros _ | intros _; eexists; reflexivity].
      repeat split. left. reflexivity.
  - intros message H.
    destruct (blockfrostClient st) as [client |] eqn:Hcache.
    { rewrite (getBlockfrostClient_cached env st Hcache) in H. discriminate H. }
    destruct (getBlockfrostClient_fresh env st Hcache) as [[m Heq] | [client Heq]];
      rewrite Heq in *; [reflexivity | discriminate H].
  - intros Hcache Hcustom Hkey. unfold getBlockfrostClient.
    rewrite Hcache, Hcustom, Hkey. reflexivity.
  - intros network Hcache Hcustom Hkey Hnet Hown Hmember.
    assert (Hnonempty : truthy (Some network) = true).
    { simpl. destruct (String.eqb_spec network EmptyString) as [-> | Hne]; [| reflexivity].
      simpl in Hmember. repeat (destruct Hmember as [H | Hmember]; [discriminate H |]).
      destruct Hmember. }
    assert (Hfound : urlProperty network = Some (InheritedMember network)).
    { unfold urlProperty. rewrite Hown.
      assert (Htrue : existsb (String.eqb network) objectPrototypeMembers = true).
      { apply existsb_exists. exists network. split; [exact Hmember | apply String.eqb_refl]. }
      rewrite Htrue. reflexivity. }
    unfold getBlockfrostClient.
    rewrite Hcache, Hcustom, Hkey, Hnet, Hnonempty, Hfound. simpl.
    eexists. split; [reflexivity |]. split; reflexivity.
Qed.
End BlockfrostFacts.

Lemma getBlockfrostClient_throws_witness :
  exists client,
    @Blockfrost.getBlockfrostClient Blockfrost.sampleDefaults
      Blockfrost.constructorEnv Blockfrost.initial
    = (Blockfrost.Returned client,
       {| Blockfrost.blockfrostClient := Some client;
          Blockfrost.constructed := S (Blockfrost.constructed Blockfrost.initial) |})
    /\ Blockfrost.baseUrl client = Blockfrost.InheritedMember "constructor"
    /\ Blockfrost.projectId client
       = Blockfrost.BLOCKFROST_API_KEY Blockfrost.constructorEnv.
Proof.
  apply (proj2 (proj2 (proj2
           (@getBlockfrostClient_throws Blockfrost.sampleDefaults
              Blockfrost.constructorEnv Blockfrost.initial)))
           "constructor"%string).
  - reflexivity.
  - reflexivity.
  - reflexivity.
  - reflexivity.
  - reflexivity.
  - simpl. auto.
Defined.
